(** * The scope-expression engine of apioid (scopes.ts) and its use by
      Model.view (model.ts)

    The development embeds the TypeScript functions as Rocq functions:

    - strings are [string]; a character stands for one code unit below 256;
    - a JavaScript array is a [list] in index order, so [a.push(x)] is
      [a ++ [x]] and [a.pop()] removes the last element.  The operand stack of
      [prepareExpr], which the source only reaches through [push], [pop] and
      [length], is the one exception: it is kept with its top first;
    - a [ScopeExpr] closure is a Rocq function that returns either a list of
      field names or the exception it throws;
    - a [ScopeInfo] object is a finite map from field names to scope lists. *)

From Stdlib Require Import String Ascii List Arith Bool Lia.
From stdpp Require Import base option list strings gmap.
Import ListNotations.

Local Open Scope string_scope.
Local Open Scope list_scope.

(** ** Exceptions *)

(** [ParseError] is the class declared in scopes.ts; [TypeError] is what the
    JavaScript runtime throws when a property of [undefined] is read or when
    [undefined] is called. *)
Inductive exn : Type :=
| ParseError
| TypeError.

Inductive res (A : Type) : Type :=
| Ret (a : A)
| Throw (e : exn).

Arguments Ret {A} a.
Arguments Throw {A} e.

Definition bind {A B : Type} (m : res A) (k : A -> res B) : res B :=
  match m with
  | Ret a => k a
  | Throw e => Throw e
  end.

Notation "'let!' x ':=' m 'in' k" := (bind m (fun x => k))
  (at level 10, x name, m at level 100, k at level 200,
   format "'let!'  x  ':='  m  'in' '//' k").

(** ** Arrays *)

Definition push {A : Type} (a : list A) (x : A) : list A := a ++ [x].

(** [a.pop()] leaves the empty array as it is. *)
Definition pop {A : Type} (a : list A) : list A := removelast a.

(** [a[a.length - 1]], [None] for [undefined]. *)
Definition top {A : Type} (a : list A) : option A := last a.

(** [a.includes(x)] on an array of strings. *)
Definition includes (a : list string) (x : string) : bool :=
  existsb (String.eqb x) a.

(** ** Tokenizer *)

(** The characters of the class [[()|&!]]. *)
Definition isSeparator (c : ascii) : bool :=
  match c with
  | "("%char | ")"%char | "|"%char | "&"%char | "!"%char => true
  | _ => false
  end.

(** White space and line terminators stripped by [String.prototype.trim],
    among the code units below 256: TAB, LF, VT, FF, CR, SP and NBSP. *)
Definition isWhiteSpace (c : ascii) : bool :=
  let n := nat_of_ascii c in
  Nat.eqb n 9 || Nat.eqb n 10 || Nat.eqb n 11 || Nat.eqb n 12
  || Nat.eqb n 13 || Nat.eqb n 32 || Nat.eqb n 160.

(** [s.split(/([()|&!])/)]: the pieces between separators, with every
    separator kept as a piece of its own.  [cur] is the piece being read. *)
Fixpoint split (cur : string) (s : string) : list string :=
  match s with
  | EmptyString => [cur]
  | String c rest =>
      if isSeparator c
      then cur :: String c EmptyString :: split EmptyString rest
      else split (cur +:+ String c EmptyString) rest
  end.

Fixpoint trimStart (s : string) : string :=
  match s with
  | EmptyString => EmptyString
  | String c rest => if isWhiteSpace c then trimStart rest else s
  end.

Fixpoint trimEnd (s : string) : string :=
  match s with
  | EmptyString => EmptyString
  | String c rest =>
      match trimEnd rest with
      | EmptyString => if isWhiteSpace c then EmptyString else String c EmptyString
      | rest' => String c rest'
      end
  end.

Definition trim (s : string) : string := trimEnd (trimStart s).

(** Truthiness of a string: only the empty string is falsy. *)
Definition truthy (s : string) : bool :=
  match s with
  | EmptyString => false
  | _ => true
  end.

Definition tokenize (expr : string) : list string :=
  List.filter truthy (List.map trim (split EmptyString expr)).

(** ** Precedence resolver *)

(** [opPrecedence]; [None] is the [undefined] the switch falls through to. *)
Definition opPrecedence (op : string) : option nat :=
  if String.eqb op "|" then Some 1
  else if String.eqb op "&" then Some 2
  else if String.eqb op "!" then Some 3
  else None.

(** [a < b] on results of [opPrecedence]: a comparison with [undefined] is
    false. *)
Definition ltPrecedence (a b : option nat) : bool :=
  match a, b with
  | Some n, Some m => Nat.ltb n m
  | _, _ => false
  end.

Definition isOperator (s : string) : bool :=
  String.eqb s "|" || String.eqb s "&" || String.eqb s "!".

(** The loop of lines 42-49.  Every turn pops one element, so [length opStack]
    turns are enough ([popOperators_fuel] below). *)
Fixpoint popOperators (fuel : nat) (precedence : option nat)
    (opStack outputStack : list string) : list string * list string :=
  match fuel with
  | O => (opStack, outputStack)
  | S fuel' =>
      match top opStack with
      | None => (opStack, outputStack)
      | Some opStackTop =>
          if String.eqb opStackTop "(" then (opStack, outputStack)
          else if ltPrecedence (opPrecedence opStackTop) precedence
          then (opStack, outputStack)
          else popOperators fuel' precedence (pop opStack)
                 (push outputStack opStackTop)
      end
  end.

(** The loop of lines 56-57. *)
Fixpoint popToParen (fuel : nat) (opStack outputStack : list string)
    : list string * list string :=
  match fuel with
  | O => (opStack, outputStack)
  | S fuel' =>
      match top opStack with
      | None => (opStack, outputStack)
      | Some opStackTop =>
          if String.eqb opStackTop "(" then (opStack, outputStack)
          else popToParen fuel' (pop opStack) (push outputStack opStackTop)
      end
  end.

(** One turn of the [for] loop over the tokens; the state is
    [(opStack, outputStack)]. *)
Definition resolveStep (st : list string * list string) (current : string)
    : list string * list string :=
  let '(opStack, outputStack) := st in
  if isOperator current then
    let precedence := opPrecedence current in
    let '(opStack', outputStack') :=
      popOperators (length opStack) precedence opStack outputStack in
    (push opStack' current, outputStack')
  else if String.eqb current "(" then (push opStack "(", outputStack)
  else if String.eqb current ")" then
    let '(opStack', outputStack') :=
      popToParen (length opStack) opStack outputStack in
    (pop opStack', outputStack')
  else (opStack, push outputStack current).

(** The state when the [for] loop is over. *)
Definition resolve (tokens : list string) : list string * list string :=
  fold_left resolveStep tokens ([], []).

Definition applyPrecedence (tokens : list string) : res (list string) :=
  let '(opStack, outputStack) := resolve tokens in
  if includes opStack "(" then Throw ParseError
  else Ret (outputStack ++ opStack).

(** ** Evaluator *)

Abbreviation ScopeInfo := (gmap string (list string)).

(** A [ScopeExpr] closure.  Evaluation returns an array of field names or
    throws. *)
Definition ScopeExpr : Type := ScopeInfo -> list string -> res (list string).

(** [a.filter(cb)] for a callback that may throw: the callback runs on the
    elements from left to right and the first exception ends the call. *)
Fixpoint arrayFilter (cb : string -> res bool) (a : list string)
    : res (list string) :=
  match a with
  | [] => Ret []
  | f :: rest =>
      let! keep := cb f in
      let! rest' := arrayFilter cb rest in
      Ret (if keep : bool then f :: rest' else rest')
  end.

(** A JavaScript [Set] of strings, as the list of its members in insertion
    order; [setAdd] is [Set.prototype.add]. *)
Definition setAdd (s : list string) (x : string) : list string :=
  if includes s x then s else push s x.

(** [Array.from((new Set(a)).values())]. *)
Definition newSet (a : list string) : list string :=
  fold_left setAdd a [].

Definition scopeWildcard : ScopeExpr :=
  fun _ fields => Ret fields.

(** [info[f]] is [undefined] when [f] is not a key of [info], and reading
    [includes] from it throws a [TypeError].  (What a plain object inherits
    under a name that is not a key of its own is a function or the prototype
    object; neither has an [includes] to call, which is a [TypeError] too.) *)
Definition scopeLiteral (scope : string) : ScopeExpr :=
  fun info fields =>
    arrayFilter
      (fun f =>
         match info !! f with
         | Some scopes => Ret (includes scopes scope)
         | None => Throw TypeError
         end)
      fields.

Definition scopeNegate (subexpr : ScopeExpr) : ScopeExpr :=
  fun info fields =>
    let! excludedFields := subexpr info fields in
    Ret (List.filter (fun f => negb (includes excludedFields f)) fields).

Definition scopeJoin (left right : ScopeExpr) : ScopeExpr :=
  fun info fields =>
    let! l := left info fields in
    let! r := right info fields in
    let allFields := l ++ r in
    Ret (newSet allFields).

Definition scopeIntersect (left right : ScopeExpr) : ScopeExpr :=
  fun info fields =>
    let! includedFields := right info fields in
    let! l := left info fields in
    Ret (List.filter (fun f => includes includedFields f) l).

(** The closures that the five constructors of scopes.ts can build. *)
Inductive Compiled : ScopeExpr -> Prop :=
| Compiled_Wildcard : Compiled scopeWildcard
| Compiled_Literal (scope : string) : Compiled (scopeLiteral scope)
| Compiled_Negate (subexpr : ScopeExpr) :
    Compiled subexpr -> Compiled (scopeNegate subexpr)
| Compiled_Join (left right : ScopeExpr) :
    Compiled left -> Compiled right -> Compiled (scopeJoin left right)
| Compiled_Intersect (left right : ScopeExpr) :
    Compiled left -> Compiled right -> Compiled (scopeIntersect left right).

(** ** Expression compiler *)

(** One turn of the [for] loop of [prepareExpr].  [stack] has its top first:
    the first [pop] of the source takes the head ([left']), the second the
    element under it ([right']), and the guards [stack.length < 2] and [stack.length < 1] are
    the cases where the pattern finds too few elements. *)
Definition prepareStep (stack : list ScopeExpr) (s : string)
    : res (list ScopeExpr) :=
  if String.eqb s "|" then
    match stack with
    | left' :: right' :: stack' => Ret (scopeJoin left' right' :: stack')
    | _ => Throw ParseError
    end
  else if String.eqb s "&" then
    match stack with
    | left' :: right' :: stack' => Ret (scopeIntersect left' right' :: stack')
    | _ => Throw ParseError
    end
  else if String.eqb s "!" then
    match stack with
    | subexpr :: stack' => Ret (scopeNegate subexpr :: stack')
    | _ => Throw ParseError
    end
  else if String.eqb s "*" then Ret (scopeWildcard :: stack)
  else Ret (scopeLiteral s :: stack).

Fixpoint prepareLoop (steps : list string) (stack : list ScopeExpr)
    : res (list ScopeExpr) :=
  match steps with
  | [] => Ret stack
  | s :: steps' =>
      let! stack' := prepareStep stack s in
      prepareLoop steps' stack'
  end.

(** The value returned is [stack.pop()]: [None] stands for the [undefined]
    that popping the empty array gives. *)
Definition prepareExpr (steps : list string) : res (option ScopeExpr) :=
  let! stack := prepareLoop steps [] in
  Ret (head stack).

Definition parse (expr : string) : res (option ScopeExpr) :=
  let tokens := tokenize expr in
  let! steps := applyPrecedence tokens in
  prepareExpr steps.

(** Calling a value returned by [parse]: calling [undefined] throws a
    [TypeError]. *)
Definition call (scopeExpr : option ScopeExpr) : ScopeExpr :=
  fun info fields =>
    match scopeExpr with
    | Some f => f info fields
    | None => Throw TypeError
    end.

(** [parse(expr)(info, fields)]. *)
Definition evaluate (expr : string) (info : ScopeInfo) (fields : list string)
    : res (list string) :=
  let! scopeExpr := parse expr in
  call scopeExpr info fields.

(** ** The model layer (model.ts) *)

(** Of a [FieldDescriptor] only [scopes] is read here; [None] is a descriptor
    without that member. *)
Record FieldDescriptor : Type := { scopes : option (list string) }.

(** [Model._fields], a [Map] from field names to descriptors, as the list of
    its entries in insertion order. *)
Definition FieldMap : Type := list (string * FieldDescriptor).

(** [Model.fields()], the keys of [_fields] in insertion order. *)
Definition fieldNames (_fields : FieldMap) : list string :=
  List.map fst _fields.

(** [scopeInfo]: [descriptor.scopes || []] is stored under every name.  (For
    the name [__proto__] the assignment of the source sets the prototype of
    the object instead of adding a key; reading that name gives the same array
    back, so the lookups at the names of the fields are as here.) *)
Definition scopeInfo (_fields : FieldMap) : ScopeInfo :=
  fold_left
    (fun (info : ScopeInfo) (entry : string * FieldDescriptor) =>
       let '(name, descriptor) := entry in
       <[name := default [] (scopes descriptor)]> info)
    _fields ∅.

(** The array [selected] of [Model.view]. *)
Definition viewSelected (_fields : FieldMap) (expr : string)
    : res (list string) :=
  let! scopeExpr := parse expr in
  let info := scopeInfo _fields in
  call scopeExpr info (fieldNames _fields).

(** ** Sample runs *)

Definition sampleInfo : ScopeInfo :=
  <["id" := []]> (<["name" := ["public"]]> (<["email" := ["private"]]>
    (<["ssn" := ["private"; "sensitive"]]> ∅))).

Definition sampleFields : list string := ["id"; "name"; "email"; "ssn"].

(** ** JavaScript [Map]s with string keys *)

(** A [Map] is the list of its entries in insertion order. *)

(** [m.get(k)], [None] for [undefined]. *)
Fixpoint mapGet {V : Type} (k : string) (m : list (string * V)) : option V :=
  match m with
  | [] => None
  | (k', v) :: rest => if String.eqb k' k then Some v else mapGet k rest
  end.

(** [m.has(k)]. *)
Definition mapHas {V : Type} (k : string) (m : list (string * V)) : bool :=
  existsb (fun entry => String.eqb (fst entry) k) m.

(** [m.set(k, v)]: the value of an existing key is replaced where it stands,
    a new key goes to the end. *)
Fixpoint mapSet {V : Type} (k : string) (v : V) (m : list (string * V))
    : list (string * V) :=
  match m with
  | [] => [(k, v)]
  | (k', v') :: rest =>
      if String.eqb k' k then (k, v) :: rest else (k', v') :: mapSet k v rest
  end.

(** ** ValidationResult (model.ts) *)

Module ValidationResult.

(** The state of a [ValidationResult] is its [_errors], a [Map] from field
    names to arrays of messages.  No array is shared between two results
    ([merge] copies the arrays it takes over), so pushing to an array is
    replacing the value of its key. *)
Definition t : Type := list (string * list string).

Definition addError (_errors : t) (field error : string) : t :=
  match mapGet field _errors with
  | None => mapSet field [error] _errors
  | Some errorBag => mapSet field (push errorBag error) _errors
  end.

(** One turn of the loop of [merge]. *)
Definition mergeEntry (_errors : t) (entry : string * list string) : t :=
  let '(field, errors) := entry in
  match mapGet field _errors with
  | None => mapSet field errors _errors
  | Some errorBag => mapSet field (errorBag ++ errors) _errors
  end.

Definition merge (_errors result : t) : t :=
  fold_left mergeEntry result _errors.

(** [new ValidationResult(results)]; [new ValidationResult] is [create []]. *)
Definition create (results : list t) : t :=
  fold_left merge results [].

(** [errors()]: the pairs of a field and a message, field by field. *)
Definition errors (_errors : t) : list (string * string) :=
  flat_map (fun entry => List.map (pair (fst entry)) (snd entry)) _errors.

(** [errors(field)]. *)
Definition errorsOf (_errors : t) (field : string) : list string :=
  match mapGet field _errors with
  | Some errors => errors
  | None => []
  end.

(** [hasErrors(field)], [None] for a call without argument. *)
Definition hasErrors (_errors : t) (field : option string) : bool :=
  match field with
  | Some f => mapHas f _errors
  | None => Nat.ltb 0 (length _errors)
  end.

(** The results that the class can produce; [new ValidationResult(results)]
    is a chain of [merge]s into a new result. *)
Inductive Built : t -> Prop :=
| Built_new : Built (create [])
| Built_addError (_errors : t) (field error : string) :
    Built _errors -> Built (addError _errors field error)
| Built_merge (_errors result : t) :
    Built _errors -> Built result -> Built (merge _errors result).

End ValidationResult.

(** ** Model: declaring fields and selecting a view (model.ts) *)

Module Model.

(** The part of a [Model] that declaring and selecting fields reads and
    writes: [_attributes] (a [Set], in insertion order), [_fields],
    [_relations], and the names for which [addField] has defined a property
    on [_prototype], in the order of the calls.  That order is a record of the
    calls only: the order in which the object lists its own properties is
    another one (names that look like array indices come first) and no
    statement relies on it.  [RelationDescriptor] is a function type of the
    source, kept abstract. *)
Record state (RelationDescriptor : Type) : Type := {
  _attributes : list string;
  _fields : FieldMap;
  _relations : list (string * RelationDescriptor);
  _prototype : list string
}.

Arguments _attributes {RelationDescriptor} _.
Arguments _fields {RelationDescriptor} _.
Arguments _relations {RelationDescriptor} _.
Arguments _prototype {RelationDescriptor} _.

(** [new Model(store, parent)]. *)
Definition create {R : Type} : state R :=
  {| _attributes := []; _fields := []; _relations := []; _prototype := [] |}.

(** [relationField(name)] has a getter and a setter, and no scopes. *)
Definition relationField (name : string) : FieldDescriptor :=
  {| scopes := None |}.

Definition addField {R : Type} (this : state R) (name : string)
    (field : FieldDescriptor) : state R :=
  if mapHas name (_fields this) then this
  else
    {| _attributes := _attributes this;
       _fields := mapSet name field (_fields this);
       _relations := _relations this;
       _prototype := push (_prototype this) name |}.

Definition addAttribute {R : Type} (this : state R) (name : string)
    (descriptor : FieldDescriptor) : state R :=
  let this' := addField this name descriptor in
  {| _attributes := setAdd (_attributes this') name;
     _fields := _fields this';
     _relations := _relations this';
     _prototype := _prototype this' |}.

Definition addRelation {R : Type} (this : state R) (name : string)
    (relation : R) : state R :=
  if mapHas name (_relations this) then this
  else
    addField
      {| _attributes := _attributes this;
         _fields := _fields this;
         _relations := mapSet name relation (_relations this);
         _prototype := _prototype this |}
      name (relationField name).

(** One turn of the loop of [select].  The test [_relations.has(name)] and
    the [get] that follows it are one lookup here. *)
Definition selectStep {R : Type} (this modelView : state R) (name : string)
    : state R :=
  match mapGet name (_fields this) with
  | None => modelView
  | Some fieldDescriptor =>
      match mapGet name (_relations this) with
      | Some relDescriptor => addRelation modelView name relDescriptor
      | None =>
          if includes (_attributes this) name
          then addAttribute modelView name fieldDescriptor
          else addField modelView name fieldDescriptor
      end
  end.

Definition select {R : Type} (this : state R) (fields : list string)
    : state R :=
  fold_left (selectStep this) fields create.

Definition view {R : Type} (this : state R) (expr : string)
    : res (state R) :=
  let! selected := viewSelected (_fields this) expr in
  Ret (select this selected).

(** The models that declarations can produce. *)
Inductive Declared {R : Type} : state R -> Prop :=
| Declared_create : Declared create
| Declared_addField this name field :
    Declared this -> Declared (addField this name field)
| Declared_addAttribute this name descriptor :
    Declared this -> Declared (addAttribute this name descriptor)
| Declared_addRelation this name relation :
    Declared this -> Declared (addRelation this name relation).

End Model.

(** The descriptor that a view holds for a field of this model: the one of
    [relationField] for a relation, the field's own otherwise. *)
Definition viewDescriptor {R : Type} (this : Model.state R) (name : string)
    : option FieldDescriptor :=
  match mapGet name (Model._fields this) with
  | None => None
  | Some fieldDescriptor =>
      match mapGet name (Model._relations this) with
      | Some _ => Some (Model.relationField name)
      | None => Some fieldDescriptor
      end
  end.

(** What [select] has built in [modelView] after the names [done]. *)
Definition selectedSoFar {R : Type} (this : Model.state R)
    (done : list string) (modelView : Model.state R) : Prop :=
  (forall n,
     mapGet n (Model._fields modelView)
     = if includes done n then viewDescriptor this n else None) /\
  (forall n,
     mapGet n (Model._relations modelView)
     = if includes done n && mapHas n (Model._fields this)
       then mapGet n (Model._relations this) else None) /\
  (forall n,
     In n (Model._attributes modelView) <->
     In n done /\ mapHas n (Model._fields this) = true /\
     mapGet n (Model._relations this) = None /\
     In n (Model._attributes this)).

(** ** Definitions used only in statements *)

(** The common shape of the two inner loops of [applyPrecedence]: pop into the
    output until the stack is empty or [stop] holds of its top. *)
Fixpoint popWhile (fuel : nat) (stop : string -> bool)
    (opStack outputStack : list string) : list string * list string :=
  match fuel with
  | O => (opStack, outputStack)
  | S fuel' =>
      match top opStack with
      | None => (opStack, outputStack)
      | Some opStackTop =>
          if stop opStackTop then (opStack, outputStack)
          else popWhile fuel' stop (pop opStack) (push outputStack opStackTop)
      end
  end.

(** The exit test of the loop of lines 42-49. *)
Definition stopsOperators (precedence : option nat) (t : string) : bool :=
  String.eqb t "(" || ltPrecedence (opPrecedence t) precedence.

(** What the resolver does NOT do at the end of the input: emptying the
    operator stack by repeated pop-and-append,
    [while (opStack.length > 0) outputStack.push(opStack.pop())]. *)
Definition drainByPop (opStack outputStack : list string) : list string :=
  snd (popWhile (length opStack) (fun _ => false) opStack outputStack).

(** The number of opening parentheses still open after [tokens], read off
    the tokens alone: a closing parenthesis closes the last open one, and
    does nothing when none is open. *)
Definition depthStep (d : nat) (t : string) : nat :=
  if String.eqb t "(" then S d
  else if String.eqb t ")" then Nat.pred d
  else d.

Definition openDepth (tokens : list string) : nat :=
  fold_left depthStep tokens 0.

(** The number of opening parentheses in an operator stack. *)
Definition parens (a : list string) : nat :=
  length (List.filter (fun t => String.eqb t "(") a).

(** [y] may lie directly on [x] in the operator stack: one of them is an
    opening parenthesis, or [y] binds strictly tighter than [x]. *)
Definition mayLieOn (x y : string) : Prop :=
  x = "(" \/ y = "(" \/ ltPrecedence (opPrecedence x) (opPrecedence y) = true.

(** Every element of the stack may lie on the one below it. *)
Fixpoint ascending (a : list string) : Prop :=
  match a with
  | x :: (y :: _) as rest => mayLieOn x y /\ ascending rest
  | _ => True
  end.

(** The first occurrences of the members of [a], in the order of [a]. *)
Fixpoint dedup (a : list string) : list string :=
  match a with
  | [] => []
  | x :: rest => x :: List.filter (fun y => negb (String.eqb y x)) (dedup rest)
  end.

(** The operator [op] finds too few operands on [stack]: fewer than two for a
    binary operator, none for the negation. *)
Definition tooFewOperands (op : string) (stack : list ScopeExpr) : Prop :=
  ((op = "|" \/ op = "&") /\ length stack < 2) \/
  (op = "!" /\ length stack < 1).

(** An operator of [steps] is met with too few operands: the steps before it
    compile to an operand stack that is too short for it. *)
Definition underflows (steps : list string) : Prop :=
  exists (pre post : list string) (op : string) (stack : list ScopeExpr),
    steps = pre ++ op :: post /\
    prepareLoop pre [] = Ret stack /\
    tooFewOperands op stack.

(** ** Definitions used in statements about the tokens *)

(** Every character of [s] satisfies [p]. *)
Fixpoint allChars (p : ascii -> bool) (s : string) : bool :=
  match s with
  | EmptyString => true
  | String c rest => p c && allChars p rest
  end.

(** A string that does not start with white space. *)
Definition startsBlack (s : string) : bool :=
  match s with
  | EmptyString => true
  | String c _ => negb (isWhiteSpace c)
  end.

(** The tokens written one after the other. *)
Definition joinTokens (tokens : list string) : string :=
  fold_right String.append EmptyString tokens.

Definition isParen (t : string) : bool :=
  String.eqb t "(" || String.eqb t ")".

(** A token that the resolver sends to the output as it is. *)
Definition isLiteralToken (t : string) : bool :=
  negb (isOperator t) && negb (isParen t).

(** Every closing parenthesis of [tokens] finds an opening one still open,
    [d] being the number open at the start. *)
Fixpoint closesOnlyOpen (d : nat) (tokens : list string) : bool :=
  match tokens with
  | [] => true
  | t :: rest =>
      if String.eqb t "(" then closesOnlyOpen (S d) rest
      else if String.eqb t ")" then
        match d with
        | O => false
        | S d' => closesOnlyOpen d' rest
        end
      else closesOnlyOpen d rest
  end.

(** The binary operators. *)
Definition isBinary (s : string) : bool :=
  String.eqb s "|" || String.eqb s "&".

(** Two entries of scope mappings that no membership test tells apart: both
    absent, or both present with the same members. *)
Definition sameScopes (a b : option (list string)) : Prop :=
  match a, b with
  | Some x, Some y => forall s, In s x <-> In s y
  | None, None => True
  | _, _ => False
  end.

(** ** Runs of the pipeline *)

Example tokenize_ex1 :
  tokenize " a | ( b&c ) " = ["a"; "|"; "("; "b"; "&"; "c"; ")"].
Proof. reflexivity. Qed.

Example applyPrecedence_ex1 :
  applyPrecedence ["a"; "|"; "b"; "&"; "c"] = Ret ["a"; "b"; "c"; "|"; "&"].
Proof. reflexivity. Qed.

Example evaluate_ex1 :
  evaluate "private&sensitive" sampleInfo sampleFields = Ret ["ssn"].
Proof. vm_compute. reflexivity. Qed.

Example evaluate_ex2 :
  evaluate "public|private" sampleInfo sampleFields = Ret ["email"; "ssn"; "name"].
Proof. vm_compute. reflexivity. Qed.

(** ** Facts about arrays *)

Section Arrays.
Context {A : Type}.
Implicit Types (a : list A) (x : A).

Lemma top_push a x : top (push a x) = Some x.
Proof. apply last_snoc. Qed.

Lemma pop_push a x : pop (push a x) = a.
Proof. apply removelast_last. Qed.

Lemma top_None a : top a = None <-> a = [].
Proof. apply last_None. Qed.

Lemma top_Some a x : top a = Some x -> a = push (pop a) x.
Proof.
  unfold top, pop, push. destruct a as [|y a'] using rev_ind.
  - discriminate.
  - rewrite last_snoc, removelast_last. congruence.
Qed.

Lemma length_push a x : length (push a x) = S (length a).
Proof. unfold push. rewrite length_app. simpl. lia. Qed.
End Arrays.

Lemma includes_In (a : list string) (x : string) :
  includes a x = true <-> In x a.
Proof.
  unfold includes. rewrite existsb_exists. split.
  - intros (y & Hy & Heq). apply String.eqb_eq in Heq. congruence.
  - intros H. exists x. split; [exact H | apply String.eqb_refl].
Qed.

Lemma includes_false (a : list string) (x : string) :
  includes a x = false <-> ~ In x a.
Proof.
  rewrite <- includes_In. destruct (includes a x); split; congruence.
Qed.

Lemma includes_app (a b : list string) (x : string) :
  includes (a ++ b) x = includes a x || includes b x.
Proof. apply existsb_app. Qed.

(** ** The inner loops of the resolver *)

Lemma popOperators_popWhile fuel precedence opStack outputStack :
  popOperators fuel precedence opStack outputStack
  = popWhile fuel (stopsOperators precedence) opStack outputStack.
Proof.
  revert opStack outputStack.
  induction fuel as [|fuel IH]; intros opStack outputStack; simpl.
  - reflexivity.
  - destruct (top opStack) as [t|]; [|reflexivity].
    unfold stopsOperators at 1.
    destruct (String.eqb t "("); simpl; [reflexivity|].
    destruct (ltPrecedence (opPrecedence t) precedence); [reflexivity|].
    apply IH.
Qed.

Lemma popToParen_popWhile fuel opStack outputStack :
  popToParen fuel opStack outputStack
  = popWhile fuel (fun t => String.eqb t "(") opStack outputStack.
Proof.
  revert opStack outputStack.
  induction fuel as [|fuel IH]; intros opStack outputStack; simpl.
  - reflexivity.
  - destruct (top opStack) as [t|]; [|reflexivity].
    destruct (String.eqb t "("); [reflexivity|]. apply IH.
Qed.

(** The loop leaves a prefix [keep] of the stack, and appends the rest to the
    output from the top down; it only stops on the empty stack or on a top
    that satisfies [stop].  The fuel [length opStack] is never used up. *)
Lemma popWhile_spec stop opStack :
  forall outputStack,
  exists keep popped,
    opStack = keep ++ popped /\
    popWhile (length opStack) stop opStack outputStack
    = (keep, outputStack ++ rev popped) /\
    Forall (fun t => stop t = false) popped /\
    match top keep with
    | None => True
    | Some t => stop t = true
    end.
Proof.
  induction opStack as [|t opStack IH] using rev_ind; intros outputStack.
  - exists [], []. simpl. rewrite app_nil_r. auto.
  - rewrite length_app. simpl. rewrite Nat.add_1_r. simpl.
    fold (push opStack t). rewrite top_push, pop_push.
    destruct (stop t) eqn:Hstop.
    + exists (push opStack t), []. rewrite !app_nil_r, top_push. auto.
    + destruct (IH (push outputStack t)) as (keep & popped & -> & Heq & Hall & Htop).
      exists keep, (popped ++ [t]). unfold push in *.
      rewrite Heq, rev_app_distr, <- !app_assoc. simpl.
      repeat split; auto.
      apply Forall_app. split; auto.
  Qed.

(** More fuel than the length of the stack changes nothing. *)
Lemma popWhile_fuel stop opStack :
  forall fuel outputStack,
    length opStack <= fuel ->
    popWhile fuel stop opStack outputStack
    = popWhile (length opStack) stop opStack outputStack.
Proof.
  induction opStack as [|t opStack IH] using rev_ind; intros fuel outputStack Hle.
  - destruct fuel; reflexivity.
  - rewrite length_app in *. simpl in *. rewrite Nat.add_1_r in *.
    destruct fuel as [|fuel]; [lia|]. simpl.
    fold (push opStack t). rewrite top_push, pop_push.
    destruct (stop t); [reflexivity|]. apply IH. lia.
Qed.

Lemma popOperators_fuel fuel precedence opStack outputStack :
  length opStack <= fuel ->
  popOperators fuel precedence opStack outputStack
  = popOperators (length opStack) precedence opStack outputStack.
Proof. rewrite !popOperators_popWhile. apply popWhile_fuel. Qed.

Lemma popToParen_fuel fuel opStack outputStack :
  length opStack <= fuel ->
  popToParen fuel opStack outputStack
  = popToParen (length opStack) opStack outputStack.
Proof. rewrite !popToParen_popWhile. apply popWhile_fuel. Qed.

Lemma drainByPop_rev opStack outputStack :
  drainByPop opStack outputStack = outputStack ++ rev opStack.
Proof.
  unfold drainByPop.
  destruct (popWhile_spec (fun _ => false) opStack outputStack)
    as (keep & popped & -> & Heq & _ & Htop).
  rewrite Heq. simpl.
  destruct (top keep) eqn:Hk; [discriminate|].
  apply top_None in Hk. subst keep. reflexivity.
Qed.

(** ** One turn of the resolver, case by case *)

Lemma token_cases (current : string) :
  isOperator current = true \/ current = "(" \/ current = ")" \/
  (isOperator current = false /\ current <> "(" /\ current <> ")").
Proof.
  destruct (isOperator current); [left; reflexivity | right].
  destruct (String.eqb_spec current "("); [left; assumption | right].
  destruct (String.eqb_spec current ")"); [left; assumption | right].
  repeat split; assumption.
Qed.

Lemma isOperator_cases (current : string) :
  isOperator current = true <->
  current = "|" \/ current = "&" \/ current = "!".
Proof.
  unfold isOperator. rewrite !orb_true_iff, !String.eqb_eq. tauto.
Qed.

Lemma resolveStep_operator opStack outputStack current :
  isOperator current = true ->
  exists keep popped,
    opStack = keep ++ popped /\
    resolveStep (opStack, outputStack) current
    = (push keep current, outputStack ++ rev popped) /\
    Forall (fun t => stopsOperators (opPrecedence current) t = false) popped /\
    match top keep with
    | None => True
    | Some t => stopsOperators (opPrecedence current) t = true
    end.
Proof.
  intros Hop. unfold resolveStep. rewrite Hop, popOperators_popWhile.
  destruct (popWhile_spec (stopsOperators (opPrecedence current)) opStack
              outputStack) as (keep & popped & Hsplit & Heq & Hall & Htop).
  exists keep, popped. rewrite Heq. auto.
Qed.

Lemma resolveStep_open opStack outputStack :
  resolveStep (opStack, outputStack) "(" = (push opStack "(", outputStack).
Proof. reflexivity. Qed.

Lemma resolveStep_close opStack outputStack :
  exists keep popped,
    opStack = keep ++ popped /\
    resolveStep (opStack, outputStack) ")"
    = (pop keep, outputStack ++ rev popped) /\
    Forall (fun t => t <> "(") popped /\
    (keep = [] \/ exists keep', keep = push keep' "(").
Proof.
  unfold resolveStep. simpl. rewrite popToParen_popWhile.
  destruct (popWhile_spec (fun t => String.eqb t "(") opStack outputStack)
    as (keep & popped & Hsplit & Heq & Hall & Htop).
  exists keep, popped. rewrite Heq. repeat split; auto.
  - eapply Forall_impl; [exact Hall|]. simpl.
    intros t Ht. apply String.eqb_neq. exact Ht.
  - destruct (top keep) as [t|] eqn:Hk.
    + right. exists (pop keep). apply String.eqb_eq in Htop. subst t.
      apply top_Some. exact Hk.
    + left. apply top_None. exact Hk.
Qed.

Lemma resolveStep_literal opStack outputStack current :
  isOperator current = false -> current <> "(" -> current <> ")" ->
  resolveStep (opStack, outputStack) current
  = (opStack, push outputStack current).
Proof.
  intros Hop H1 H2. unfold resolveStep. rewrite Hop.
  apply String.eqb_neq in H1, H2. rewrite H1, H2. reflexivity.
Qed.

Lemma resolve_app tokens1 tokens2 :
  resolve (tokens1 ++ tokens2)
  = fold_left resolveStep tokens2 (resolve tokens1).
Proof. apply fold_left_app. Qed.

(** ** Opening parentheses on the operator stack *)

Lemma parens_app a b : parens (a ++ b) = parens a + parens b.
Proof. unfold parens. rewrite List.filter_app, length_app. reflexivity. Qed.

Lemma parens_none a : Forall (fun t => t <> "(") a -> parens a = 0.
Proof.
  induction 1 as [|t a Ht _ IH]; [reflexivity|].
  unfold parens in *. simpl. apply String.eqb_neq in Ht. rewrite Ht. exact IH.
Qed.

Lemma includes_parens a : includes a "(" = true <-> 0 < parens a.
Proof.
  rewrite includes_In. unfold parens. induction a as [|t a IH]; simpl.
  - split; [tauto | lia].
  - destruct (String.eqb_spec t "(") as [->|Hne]; simpl.
    + split; [lia | auto].
    + rewrite <- IH. split; [intros [H|H]; [congruence | exact H] | auto].
Qed.

Lemma stopsOperators_false_not_paren precedence t :
  stopsOperators precedence t = false -> t <> "(".
Proof.
  unfold stopsOperators. intros H. apply orb_false_iff in H as [H _].
  apply String.eqb_neq. exact H.
Qed.

Lemma resolveStep_parens st current :
  parens (fst (resolveStep st current)) = depthStep (parens (fst st)) current.
Proof.
  destruct st as [opStack outputStack].
  destruct (token_cases current) as [Hop | [-> | [-> | (Hop & H1 & H2)]]].
  - destruct (resolveStep_operator opStack outputStack current Hop)
      as (keep & popped & -> & -> & Hall & _).
    apply isOperator_cases in Hop. unfold depthStep, push. simpl.
    rewrite !parens_app, (parens_none popped).
    + destruct Hop as [-> | [-> | ->]]; simpl; cbn; lia.
    + eapply Forall_impl; [exact Hall|].
      intros t. apply stopsOperators_false_not_paren.
  - rewrite resolveStep_open. unfold push. simpl.
    rewrite parens_app. cbn. lia.
  - destruct (resolveStep_close opStack outputStack)
      as (keep & popped & -> & -> & Hall & Hkeep).
    simpl. rewrite parens_app, (parens_none popped Hall). cbn.
    destruct Hkeep as [-> | (keep' & ->)].
    + reflexivity.
    + rewrite pop_push. unfold push. rewrite parens_app. cbn. lia.
  - rewrite resolveStep_literal by assumption. simpl. unfold depthStep.
    apply String.eqb_neq in H1, H2. rewrite H1, H2. reflexivity.
Qed.

Lemma fold_resolveStep_parens tokens :
  forall st,
    parens (fst (fold_left resolveStep tokens st))
    = fold_left depthStep tokens (parens (fst st)).
Proof.
  induction tokens as [|t tokens IH]; intros st; simpl; [reflexivity|].
  rewrite IH, resolveStep_parens. reflexivity.
Qed.

Lemma resolve_parens tokens : parens (fst (resolve tokens)) = openDepth tokens.
Proof. unfold resolve, openDepth. apply fold_resolveStep_parens. Qed.

(** ** The operator stack is ascending *)

Lemma ascending_app_l a b : ascending (a ++ b) -> ascending a.
Proof.
  induction a as [|x a IH]; simpl; [tauto|].
  destruct a as [|y a]; simpl in *; [tauto|].
  intros [Hxy Hrest]. split; [exact Hxy | apply IH; exact Hrest].
Qed.

Lemma ascending_pop a : ascending a -> ascending (pop a).
Proof.
  destruct a as [|t a _] using rev_ind; [tauto|].
  fold (push a t). rewrite pop_push. apply ascending_app_l.
Qed.

Lemma ascending_push a y :
  ascending a ->
  match top a with
  | None => True
  | Some t => mayLieOn t y
  end ->
  ascending (push a y).
Proof.
  unfold push, top. induction a as [|x a IH]; simpl; [tauto|].
  destruct a as [|x' a]; simpl in *.
  - tauto.
  - intros [Hxx' Hrest] Htop. split; [exact Hxx'|].
    apply IH; assumption.
Qed.

Lemma stopsOperators_mayLieOn current t :
  stopsOperators (opPrecedence current) t = true -> mayLieOn t current.
Proof.
  unfold stopsOperators, mayLieOn. intros H.
  apply orb_true_iff in H as [H | H].
  - left. apply String.eqb_eq. exact H.
  - right. right. exact H.
Qed.

Lemma resolveStep_ascending st current :
  ascending (fst st) -> ascending (fst (resolveStep st current)).
Proof.
  destruct st as [opStack outputStack]. intros Hasc. simpl in Hasc.
  destruct (token_cases current) as [Hop | [-> | [-> | (Hop & H1 & H2)]]].
  - destruct (resolveStep_operator opStack outputStack current Hop)
      as (keep & popped & -> & -> & _ & Htop).
    simpl. apply ascending_push.
    + eapply ascending_app_l. exact Hasc.
    + destruct (top keep) as [t|]; [|exact I].
      apply stopsOperators_mayLieOn. exact Htop.
  - rewrite resolveStep_open. simpl. apply ascending_push; [exact Hasc|].
    destruct (top opStack); [|exact I]. right. left. reflexivity.
  - destruct (resolveStep_close opStack outputStack)
      as (keep & popped & -> & -> & _ & _).
    simpl. apply ascending_pop. eapply ascending_app_l. exact Hasc.
  - rewrite resolveStep_literal by assumption. exact Hasc.
Qed.

Lemma resolve_ascending tokens : ascending (fst (resolve tokens)).
Proof.
  unfold resolve.
  assert (H : forall st, ascending (fst st) ->
                         ascending (fst (fold_left resolveStep tokens st))).
  { induction tokens as [|t tokens IH]; intros st Hst; simpl; [exact Hst|].
    apply IH, resolveStep_ascending, Hst. }
  apply H. exact I.
Qed.

Lemma ltPrecedence_trans a b c :
  ltPrecedence a b = true -> ltPrecedence b c = true -> ltPrecedence a c = true.
Proof.
  destruct a as [n|], b as [m|], c as [k|]; simpl; try discriminate.
  rewrite !Nat.ltb_lt. lia.
Qed.

Lemma ltPrecedence_irrefl a : ltPrecedence a a = false.
Proof. destruct a as [n|]; simpl; [apply Nat.ltb_irrefl | reflexivity]. Qed.

(** Without parentheses the bottom of the stack binds strictly looser than
    its top. *)
Lemma ascending_bottom_top mid :
  forall x z,
    ascending (x :: mid ++ [z]) ->
    Forall (fun t => t <> "(") (x :: mid ++ [z]) ->
    ltPrecedence (opPrecedence x) (opPrecedence z) = true.
Proof.
  induction mid as [|y mid IH]; intros x z Hasc Hnp.
  - simpl in *. destruct Hasc as [[Hx | [Hz | Hlt]] _].
    + inversion Hnp; subst. congruence.
    + inversion Hnp as [|? ? _ Hnp']; subst. inversion Hnp'; subst. congruence.
    + exact Hlt.
  - simpl in Hasc. destruct Hasc as [Hxy Hrest].
    inversion Hnp as [|? ? Hx Hnp']; subst.
    assert (Hy : y <> "(") by (inversion Hnp'; assumption).
    eapply ltPrecedence_trans; [|apply IH; [exact Hrest | exact Hnp']].
    destruct Hxy as [? | [? | Hlt]]; [congruence | congruence | exact Hlt].
Qed.

Lemma ascending_rev_neq a :
  ascending a -> includes a "(" = false -> 2 <= length a -> rev a <> a.
Proof.
  intros Hasc Hnp Hlen.
  destruct a as [|x a]; [simpl in Hlen; lia|].
  destruct a as [|z mid _] using rev_ind; [simpl in Hlen; lia|].
  assert (Hall : Forall (fun t => t <> "(") (x :: mid ++ [z])).
  { apply List.Forall_forall. intros t Ht ->.
    apply includes_false in Hnp. apply Hnp, Ht. }
  pose proof (ascending_bottom_top mid x z Hasc Hall) as Hlt.
  simpl. rewrite rev_app_distr. simpl. intros Heq.
  injection Heq as Hzx _. subst z.
  rewrite ltPrecedence_irrefl in Hlt. discriminate.
Qed.

(** ** The end of the input (claim C4) *)

(** C4.  When the tokens are consumed and no opening parenthesis is left, the
    postfix sequence is the output followed by the operator stack in array
    order, bottom to top.  As soon as two operators are left this is not the
    sequence that popping them one by one would give. *)
Theorem applyPrecedence_appends_stack_bottom_up
    (tokens opStack outputStack : list string) :
  resolve tokens = (opStack, outputStack) ->
  includes opStack "(" = false ->
  applyPrecedence tokens = Ret (outputStack ++ opStack) /\
  (2 <= length opStack ->
   applyPrecedence tokens <> Ret (drainByPop opStack outputStack)).
Proof.
  intros Hres Hnp.
  assert (Happ : applyPrecedence tokens = Ret (outputStack ++ opStack)).
  { unfold applyPrecedence. rewrite Hres, Hnp. reflexivity. }
  split; [exact Happ|].
  intros Hlen. rewrite Happ, drainByPop_rev. intros Heq.
  injection Heq as Heq. apply app_inv_head in Heq.
  pose proof (resolve_ascending tokens) as Hasc. rewrite Hres in Hasc.
  symmetry in Heq. revert Heq. apply ascending_rev_neq; assumption.
Qed.

Lemma applyPrecedence_appends_stack_bottom_up_witness :
  applyPrecedence ["a"; "|"; "b"; "&"; "c"] = Ret ["a"; "b"; "c"; "|"; "&"] /\
  applyPrecedence ["a"; "|"; "b"; "&"; "c"]
  <> Ret (drainByPop ["|"; "&"] ["a"; "b"; "c"]).
Proof.
  destruct (applyPrecedence_appends_stack_bottom_up
              ["a"; "|"; "b"; "&"; "c"] ["|"; "&"] ["a"; "b"; "c"]
              eq_refl eq_refl) as [H1 H2].
  split; [exact H1 | apply H2; simpl; lia].
Defined.

(** ** Sets of strings in insertion order *)

Lemma filter_ext_In' (p q : string -> bool) (a : list string) :
  (forall x, In x a -> p x = q x) -> List.filter p a = List.filter q a.
Proof.
  induction a as [|x a IH]; intros H; simpl; [reflexivity|].
  rewrite (H x) by (left; reflexivity).
  rewrite IH by (intros y Hy; apply H; right; exact Hy). reflexivity.
Qed.

Lemma filter_filter' (p q : string -> bool) (a : list string) :
  List.filter p (List.filter q a) = List.filter (fun x => q x && p x) a.
Proof.
  induction a as [|x a IH]; simpl; [reflexivity|].
  destruct (q x); simpl; [destruct (p x)|]; rewrite IH; reflexivity.
Qed.

Lemma includes_cons (a : list string) (y x : string) :
  includes (y :: a) x = String.eqb x y || includes a x.
Proof. reflexivity. Qed.

Lemma includes_push (a : list string) (y x : string) :
  includes (push a y) x = includes a x || String.eqb x y.
Proof.
  unfold push. rewrite includes_app, includes_cons. simpl.
  rewrite orb_false_r. reflexivity.
Qed.

Lemma fold_setAdd_dedup (a : list string) :
  forall acc,
    fold_left setAdd a acc
    = acc ++ List.filter (fun f => negb (includes acc f)) (dedup a).
Proof.
  induction a as [|x a IH]; intros acc; simpl.
  - rewrite app_nil_r. reflexivity.
  - rewrite IH. unfold setAdd. rewrite filter_filter'.
    destruct (includes acc x) eqn:Hx; simpl.
    + f_equal. apply filter_ext_In'. intros y _.
      destruct (String.eqb_spec y x) as [->|Hne]; simpl.
      * rewrite Hx. reflexivity.
      * reflexivity.
    + replace (List.filter (fun f => negb (includes (push acc x) f)) (dedup a))
        with (List.filter
                (fun y => negb (String.eqb y x) && negb (includes acc y))
                (dedup a)).
      * unfold push. rewrite <- app_assoc. reflexivity.
      * apply filter_ext_In'. intros y _. rewrite includes_push.
        destruct (String.eqb y x), (includes acc y); reflexivity.
Qed.

Lemma newSet_dedup (a : list string) : newSet a = dedup a.
Proof.
  unfold newSet. rewrite fold_setAdd_dedup. simpl.
  induction (dedup a) as [|x l IH]; simpl; [reflexivity|].
  f_equal. exact IH.
Qed.

Lemma dedup_In (a : list string) (x : string) : In x (dedup a) <-> In x a.
Proof.
  induction a as [|y a IH]; simpl; [tauto|].
  rewrite List.filter_In, IH, negb_true_iff, String.eqb_neq.
  destruct (String.eqb_spec y x) as [->|Hne]; [tauto|].
  split; [tauto|]. intros [H|H]; [tauto|].
  right. split; [exact H | congruence].
Qed.

Lemma dedup_NoDup (a : list string) : List.NoDup (dedup a).
Proof.
  induction a as [|y a IH]; simpl; constructor.
  - rewrite List.filter_In, negb_true_iff, String.eqb_neq. tauto.
  - apply List.NoDup_filter. exact IH.
Qed.

Lemma dedup_app (a b : list string) :
  dedup (a ++ b)
  = dedup a ++ List.filter (fun f => negb (includes a f)) (dedup b).
Proof.
  induction a as [|x a IH]; simpl.
  - induction (dedup b) as [|y l IHl]; simpl; [reflexivity|].
    f_equal. exact IHl.
  - f_equal. rewrite IH, List.filter_app, filter_filter'. f_equal.
    apply filter_ext_In'. intros y _. unfold includes. simpl.
    destruct (String.eqb y x), (existsb (String.eqb y) a); reflexivity.
Qed.

Lemma dedup_id (a : list string) : List.NoDup a -> dedup a = a.
Proof.
  induction 1 as [|x a Hx _ IH]; simpl; [reflexivity|].
  rewrite IH. f_equal. clear IH.
  induction a as [|y a IHa]; simpl; [reflexivity|].
  destruct (String.eqb_spec y x) as [->|Hne]; simpl.
  - exfalso. apply Hx. left. reflexivity.
  - f_equal. apply IHa. intros H. apply Hx. right. exact H.
Qed.

(** ** Evaluation of the five nodes *)

Lemma arrayFilter_In cb a r x :
  arrayFilter cb a = Ret r -> In x r -> In x a.
Proof.
  revert r. induction a as [|f a IH]; intros r; simpl.
  - intros [= <-]. tauto.
  - destruct (cb f) as [keep|]; simpl; [|discriminate].
    destruct (arrayFilter cb a) as [rest|]; simpl; [|discriminate].
    intros [= <-]. destruct keep; simpl; intros H.
    + destruct H as [H|H]; [left; exact H | right; eapply IH; eauto].
    + right. eapply IH; eauto.
Qed.

(** A literal throws exactly when some field is not a key of [info], and
    otherwise keeps the fields that declare the scope. *)
Lemma scopeLiteral_cases scope (info : ScopeInfo) fields :
  (Forall (fun f => is_Some (info !! f)) fields /\
   scopeLiteral scope info fields
   = Ret (List.filter
            (fun f => includes (default [] (info !! f)) scope) fields)) \/
  ((exists f, In f fields /\ info !! f = None) /\
   scopeLiteral scope info fields = Throw TypeError).
Proof.
  unfold scopeLiteral. induction fields as [|f fields IH]; simpl.
  - left. split; [constructor | reflexivity].
  - destruct (info !! f) as [scopes|] eqn:Hf; simpl.
    + destruct IH as [[Hall ->] | [(g & Hg & Hnone) ->]]; simpl.
      * left. split; [constructor; [rewrite Hf; eauto | exact Hall]|].
        reflexivity.
      * right. split; [|reflexivity]. exists g. auto.
    + right. split; [|reflexivity]. exists f. auto.
Qed.

Lemma Forall_is_Some_no_absent (info : ScopeInfo) fields :
  Forall (fun f => is_Some (info !! f)) fields ->
  ~ exists f, In f fields /\ info !! f = None.
Proof.
  intros Hall (f & Hin & Hnone).
  rewrite List.Forall_forall in Hall. specialize (Hall f Hin).
  rewrite Hnone in Hall. destruct Hall as [? [=]].
Qed.

(** Whatever a compiled closure throws is a [TypeError], and it is caused by
    a field that is not a key of [info]. *)
Lemma Compiled_throw f (info : ScopeInfo) fields e :
  Compiled f -> f info fields = Throw e ->
  e = TypeError /\ exists x, In x fields /\ info !! x = None.
Proof.
  intros Hc. revert e.
  induction Hc as [|scope|subexpr _ IH|l r _ IHl _ IHr|l r _ IHl _ IHr];
    intros e.
  - discriminate.
  - destruct (scopeLiteral_cases scope info fields) as [[_ ->] | [Habs ->]].
    + discriminate.
    + intros [= <-]. auto.
  - unfold scopeNegate. destruct (subexpr info fields); simpl.
    + discriminate.
    + intros [= <-]. apply IH. reflexivity.
  - unfold scopeJoin. destruct (l info fields); simpl.
    + destruct (r info fields); simpl; [discriminate|].
      intros [= <-]. apply IHr. reflexivity.
    + intros [= <-]. apply IHl. reflexivity.
  - unfold scopeIntersect. destruct (r info fields); simpl.
    + destruct (l info fields); simpl; [discriminate|].
      intros [= <-]. apply IHl. reflexivity.
    + intros [= <-]. apply IHr. reflexivity.
Qed.

Lemma Compiled_total f (info : ScopeInfo) fields :
  Compiled f ->
  Forall (fun x => is_Some (info !! x)) fields ->
  exists r, f info fields = Ret r.
Proof.
  intros Hc Hall. destruct (f info fields) as [r|e] eqn:Hf; [eauto|].
  destruct (Compiled_throw f info fields e Hc Hf) as [_ Habs].
  exfalso. revert Habs. apply Forall_is_Some_no_absent. exact Hall.
Qed.

Lemma Compiled_narrows f (info : ScopeInfo) fields :
  Compiled f ->
  forall r, f info fields = Ret r -> forall x, In x r -> In x fields.
Proof.
  induction 1 as [|scope|subexpr _ IH|l r _ IHl _ IHr|l r _ IHl _ IHr];
    intros res Hres x Hx.
  - injection Hres as <-. exact Hx.
  - eapply arrayFilter_In; eauto.
  - unfold scopeNegate in Hres. destruct (subexpr info fields); simpl in Hres;
      [|discriminate].
    injection Hres as <-. apply List.filter_In in Hx. tauto.
  - unfold scopeJoin in Hres.
    destruct (l info fields) as [rl|]; simpl in Hres; [|discriminate].
    destruct (r info fields) as [rr|]; simpl in Hres; [|discriminate].
    injection Hres as <-. rewrite newSet_dedup, dedup_In in Hx.
    apply List.in_app_or in Hx as [Hx|Hx]; [eapply IHl | eapply IHr]; eauto.
  - unfold scopeIntersect in Hres.
    destruct (r info fields) as [rr|]; simpl in Hres; [|discriminate].
    destruct (l info fields) as [rl|]; simpl in Hres; [|discriminate].
    injection Hres as <-. apply List.filter_In in Hx as [Hx _].
    eapply IHl; eauto.
Qed.

Lemma arrayFilter_NoDup cb a r :
  arrayFilter cb a = Ret r -> List.NoDup a -> List.NoDup r.
Proof.
  revert r. induction a as [|f a IH]; intros r; simpl.
  - intros [= <-] _. constructor.
  - destruct (cb f) as [keep|]; simpl; [|discriminate].
    destruct (arrayFilter cb a) as [rest|] eqn:Hrest; simpl; [|discriminate].
    intros [= <-] Hnd. inversion Hnd as [|? ? Hf Ha]; subst.
    destruct keep; [|apply IH; auto].
    constructor; [|apply IH; auto].
    intros Hin. apply Hf. eapply arrayFilter_In; eauto.
Qed.

(** Over fields without duplicates, results have no duplicates either. *)
Lemma Compiled_NoDup f (info : ScopeInfo) fields :
  Compiled f -> List.NoDup fields ->
  forall r, f info fields = Ret r -> List.NoDup r.
Proof.
  intros Hc Hnd.
  induction Hc as [|scope|subexpr _ IH|l r _ IHl _ IHr|l r _ IHl _ IHr];
    intros res Hres.
  - injection Hres as <-. exact Hnd.
  - eapply arrayFilter_NoDup; eauto.
  - unfold scopeNegate in Hres. destruct (subexpr info fields); simpl in Hres;
      [|discriminate].
    injection Hres as <-. apply List.NoDup_filter. exact Hnd.
  - unfold scopeJoin in Hres.
    destruct (l info fields) as [rl|]; simpl in Hres; [|discriminate].
    destruct (r info fields) as [rr|]; simpl in Hres; [|discriminate].
    injection Hres as <-. rewrite newSet_dedup. apply dedup_NoDup.
  - unfold scopeIntersect in Hres.
    destruct (r info fields) as [rr|]; simpl in Hres; [|discriminate].
    destruct (l info fields) as [rl|]; simpl in Hres; [|discriminate].
    injection Hres as <-. apply List.NoDup_filter. apply IHl. reflexivity.
Qed.

(** ** Union, negation and narrowing (claims C5, C6, C8) *)

(** C5.  Where both children evaluate, a Union node returns the deduplicated
    concatenation of the left result and the right result: the members of the
    left result come first, in their order, and are followed by the members of
    the right result that the left result does not have, in their order.
    Over fields without duplicates the results of compiled children have no
    duplicates, and the left result is returned as it is. *)
Theorem scopeJoin_deduplicated_concatenation
    (left right : ScopeExpr) (info : ScopeInfo) (fields ra rb : list string) :
  left info fields = Ret ra ->
  right info fields = Ret rb ->
  scopeJoin left right info fields = Ret (dedup (ra ++ rb)) /\
  dedup (ra ++ rb)
  = dedup ra ++ List.filter (fun f => negb (includes ra f)) (dedup rb) /\
  List.NoDup (dedup (ra ++ rb)) /\
  (forall f, In f (dedup (ra ++ rb)) <-> In f ra \/ In f rb) /\
  (Compiled left -> Compiled right -> List.NoDup fields ->
   scopeJoin left right info fields
   = Ret (ra ++ List.filter (fun f => negb (includes ra f)) rb)).
Proof.
  intros Ha Hb.
  assert (Hjoin : scopeJoin left right info fields = Ret (dedup (ra ++ rb))).
  { unfold scopeJoin. rewrite Ha, Hb. simpl. rewrite newSet_dedup.
    reflexivity. }
  split; [exact Hjoin|].
  split; [apply dedup_app|].
  split; [apply dedup_NoDup|].
  split.
  - intros f. rewrite dedup_In. apply List.in_app_iff.
  - intros Hl Hr Hnd. rewrite Hjoin, dedup_app.
    rewrite (dedup_id ra (Compiled_NoDup left info fields Hl Hnd ra Ha)).
    rewrite (dedup_id rb (Compiled_NoDup right info fields Hr Hnd rb Hb)).
    reflexivity.
Qed.

Lemma scopeJoin_deduplicated_concatenation_witness :
  scopeJoin (scopeLiteral "private") (scopeLiteral "sensitive")
    sampleInfo sampleFields
  = Ret (dedup (["email"; "ssn"] ++ ["ssn"])) /\
  dedup (["email"; "ssn"] ++ ["ssn"]) = ["email"; "ssn"].
Proof.
  destruct (scopeJoin_deduplicated_concatenation
              (scopeLiteral "private") (scopeLiteral "sensitive")
              sampleInfo sampleFields ["email"; "ssn"] ["ssn"])
    as (Hjoin & _).
  - vm_compute. reflexivity.
  - vm_compute. reflexivity.
  - split; [exact Hjoin | reflexivity].
Defined.

(** C6.  Where the child evaluates, a Negate node returns the fields that the
    child's result does not have, in the order of [fields]; the child is
    called with the very [fields] of the Negate node, also when the node is an
    operand of an Intersect node whose other operand selects fewer fields. *)
Theorem scopeNegate_complement_of_child
    (subexpr : ScopeExpr) (info : ScopeInfo) (fields excluded : list string) :
  subexpr info fields = Ret excluded ->
  scopeNegate subexpr info fields
  = Ret (List.filter (fun f => negb (includes excluded f)) fields) /\
  (forall f, In f (List.filter (fun f => negb (includes excluded f)) fields)
             <-> In f fields /\ ~ In f excluded) /\
  sublist (List.filter (fun f => negb (includes excluded f)) fields) fields /\
  (forall (sibling : ScopeExpr) (narrowed : list string),
     sibling info fields = Ret narrowed ->
     scopeIntersect sibling (scopeNegate subexpr) info fields
     = Ret (List.filter
              (fun f =>
                 includes
                   (List.filter (fun g => negb (includes excluded g)) fields) f)
              narrowed)).
Proof.
  intros Hc. unfold scopeNegate at 1. rewrite Hc. simpl.
  split; [reflexivity|]. split; [|split].
  - intros f. rewrite List.filter_In, negb_true_iff, includes_false. tauto.
  - clear Hc. induction fields as [|f fields IH]; simpl; [constructor|].
    destruct (negb (includes excluded f)); constructor; exact IH.
  - intros sibling narrowed Hs. unfold scopeIntersect, scopeNegate.
    rewrite Hc, Hs. reflexivity.
Qed.

Lemma scopeNegate_complement_of_child_witness :
  scopeNegate (scopeLiteral "private") sampleInfo sampleFields
  = Ret (List.filter (fun f => negb (includes ["email"; "ssn"] f))
           sampleFields).
Proof.
  apply (scopeNegate_complement_of_child (scopeLiteral "private") sampleInfo
           sampleFields ["email"; "ssn"]).
  vm_compute. reflexivity.
Defined.

(** C8.  Whatever a compiled expression returns is drawn from the fields it
    was given. *)
Theorem evaluation_narrows
    (f : ScopeExpr) (info : ScopeInfo) (fields result : list string) :
  Compiled f ->
  f info fields = Ret result ->
  forall x, In x result -> In x fields.
Proof. intros Hc Hres. eapply Compiled_narrows; eauto. Qed.

Lemma evaluation_narrows_witness : In "ssn" ["id"; "ssn"].
Proof.
  apply (evaluation_narrows
           (scopeJoin (scopeLiteral "sensitive") (scopeNegate scopeWildcard))
           sampleInfo ["id"; "ssn"] ["ssn"]).
  - apply Compiled_Join;
      [apply Compiled_Literal | apply Compiled_Negate, Compiled_Wildcard].
  - vm_compute. reflexivity.
  - simpl. left. reflexivity.
Defined.

(** ** Fields without an entry in the scope mapping (claim C1) *)

(** C1, as the code has it.  A compiled expression returns normally whenever
    every field is a key of the mapping; it never throws a [ParseError]; when
    it throws, it throws a [TypeError] and some field is not a key of the
    mapping; and a Literal node throws exactly when some field is not a key
    of the mapping. *)
Theorem evaluation_total_on_mapped_fields
    (f : ScopeExpr) (info : ScopeInfo) (fields : list string) :
  Compiled f ->
  (Forall (fun x => is_Some (info !! x)) fields ->
   exists result, f info fields = Ret result) /\
  (forall e, f info fields = Throw e ->
             e = TypeError /\ exists x, In x fields /\ info !! x = None) /\
  (forall scope,
     scopeLiteral scope info fields = Throw TypeError <->
     exists x, In x fields /\ info !! x = None).
Proof.
  intros Hc. split; [apply Compiled_total; exact Hc|].
  split; [intros e; apply Compiled_throw; exact Hc|].
  intros scope.
  destruct (scopeLiteral_cases scope info fields) as [[Hall ->] | [Habs ->]].
  - split; [discriminate|]. intros Habs. exfalso. revert Habs.
    apply Forall_is_Some_no_absent. exact Hall.
  - tauto.
Qed.

Lemma evaluation_total_on_mapped_fields_witness :
  exists result,
    scopeNegate (scopeLiteral "sensitive") sampleInfo sampleFields = Ret result.
Proof.
  apply (evaluation_total_on_mapped_fields
           (scopeNegate (scopeLiteral "sensitive")) sampleInfo sampleFields).
  - apply Compiled_Negate, Compiled_Literal.
  - unfold sampleFields. repeat constructor; vm_compute; eauto.
Defined.

(** C1 as stated fails: the field ["age"] is not a key of the mapping, and
    the literal throws instead of leaving it out. *)
Lemma absent_field_throws :
  Compiled (scopeLiteral "public") /\
  sampleInfo !! "age" = None /\
  scopeLiteral "public" sampleInfo ["id"; "age"] = Throw TypeError.
Proof.
  split; [apply Compiled_Literal|]. split; vm_compute; reflexivity.
Defined.

(** ** Facts about the compiler *)

Lemma prepareStep_throw stack s e :
  prepareStep stack s = Throw e <-> e = ParseError /\ tooFewOperands s stack.
Proof.
  unfold prepareStep, tooFewOperands.
  destruct (String.eqb_spec s "|") as [->|H1].
  { destruct stack as [|l [|r stack]]; simpl; split;
      try discriminate; try (intros [= <-]; split; [reflexivity|]; left;
                             split; [auto | lia]);
      try (intros [_ [[_ H] | [[=] _]]]; lia);
      intros [-> _]; reflexivity. }
  destruct (String.eqb_spec s "&") as [->|H2].
  { destruct stack as [|l [|r stack]]; simpl; split;
      try discriminate; try (intros [= <-]; split; [reflexivity|]; left;
                             split; [auto | lia]);
      try (intros [_ [[_ H] | [[=] _]]]; lia);
      intros [-> _]; reflexivity. }
  destruct (String.eqb_spec s "!") as [->|H3].
  { destruct stack as [|l stack]; simpl; split;
      try discriminate; try (intros [= <-]; split; [reflexivity|]; right;
                             split; [auto | lia]);
      try (intros [_ [[[[=]|[=]] _] | [_ H]]]; lia);
      intros [-> _]; reflexivity. }
  destruct (String.eqb s "*"); (split; [discriminate|]);
    intros [_ [[[?|?] _] | [? _]]]; congruence.
Qed.

Lemma prepareLoop_app pre post :
  forall stack,
    prepareLoop (pre ++ post) stack
    = (let! stack' := prepareLoop pre stack in prepareLoop post stack').
Proof.
  induction pre as [|s pre IH]; intros stack; simpl; [reflexivity|].
  destruct (prepareStep stack s) as [stack'|e]; simpl; [apply IH | reflexivity].
Qed.

(** The compiler throws exactly when some operator finds too few operands,
    and what it throws is a [ParseError]. *)
Lemma prepareLoop_throw steps :
  forall stack0 e,
    prepareLoop steps stack0 = Throw e <->
    e = ParseError /\
    exists pre post op stack,
      steps = pre ++ op :: post /\
      prepareLoop pre stack0 = Ret stack /\
      tooFewOperands op stack.
Proof.
  induction steps as [|s steps IH]; intros stack0 e; simpl.
  - split; [discriminate|].
    intros (_ & pre & post & op & stack & Heq & _). destruct pre; discriminate.
  - destruct (prepareStep stack0 s) as [stack'|e'] eqn:Hstep; simpl.
    + rewrite IH. split.
      * intros (-> & pre & post & op & stack & -> & Hpre & Hfew).
        split; [reflexivity|]. exists (s :: pre), post, op, stack.
        simpl. rewrite Hstep. simpl. auto.
      * intros (-> & pre & post & op & stack & Heq & Hpre & Hfew).
        split; [reflexivity|]. destruct pre as [|s' pre]; simpl in *.
        -- injection Heq as <- <-. injection Hpre as <-.
           assert (Hthrow : prepareStep stack0 s = Throw ParseError)
             by (apply prepareStep_throw; auto).
           congruence.
        -- injection Heq as <- ->. rewrite Hstep in Hpre. simpl in Hpre.
           exists pre, post, op, stack. auto.
    + apply prepareStep_throw in Hstep as [-> Hfew]. split.
      * intros [= <-]. split; [reflexivity|].
        exists [], steps, s, stack0. auto.
      * intros [-> _]. reflexivity.
Qed.

Lemma prepareStep_Compiled stack s stack' :
  Forall Compiled stack -> prepareStep stack s = Ret stack' ->
  Forall Compiled stack'.
Proof.
  intros Hall. unfold prepareStep.
  destruct (String.eqb s "|").
  { destruct Hall as [|l ? Hl [|r ? Hr Hall]]; try discriminate.
    intros [= <-]. constructor; [apply Compiled_Join; assumption | exact Hall]. }
  destruct (String.eqb s "&").
  { destruct Hall as [|l ? Hl [|r ? Hr Hall]]; try discriminate.
    intros [= <-].
    constructor; [apply Compiled_Intersect; assumption | exact Hall]. }
  destruct (String.eqb s "!").
  { destruct Hall as [|l ? Hl Hall]; try discriminate.
    intros [= <-]. constructor; [apply Compiled_Negate; assumption | exact Hall]. }
  destruct (String.eqb s "*"); intros [= <-]; constructor;
    first [apply Compiled_Wildcard | apply Compiled_Literal | exact Hall].
Qed.

Lemma prepareLoop_Compiled steps :
  forall stack stack',
    Forall Compiled stack -> prepareLoop steps stack = Ret stack' ->
    Forall Compiled stack'.
Proof.
  induction steps as [|s steps IH]; intros stack stack' Hall; simpl.
  - intros [= <-]. exact Hall.
  - destruct (prepareStep stack s) as [stack1|] eqn:Hstep; simpl;
      [|discriminate].
    apply IH. eapply prepareStep_Compiled; eauto.
Qed.

(** What [parse] returns, when it is not [undefined], is a compiled closure. *)
Lemma parse_Compiled expr f : parse expr = Ret (Some f) -> Compiled f.
Proof.
  unfold parse, prepareExpr.
  destruct (applyPrecedence (tokenize expr)) as [steps|]; simpl; [|discriminate].
  destruct (prepareLoop steps []) as [stack|] eqn:Hloop; simpl; [|discriminate].
  intros [= Hhead].
  apply prepareLoop_Compiled in Hloop; [|constructor].
  destruct Hloop as [|g ? Hg _]; simpl in Hhead; [discriminate|].
  injection Hhead as <-. exact Hg.
Qed.

Lemma applyPrecedence_throw tokens e :
  applyPrecedence tokens = Throw e <->
  e = ParseError /\ includes (fst (resolve tokens)) "(" = true.
Proof.
  unfold applyPrecedence. destruct (resolve tokens) as [opStack outputStack].
  simpl. destruct (includes opStack "("); split.
  - intros [= <-]. auto.
  - intros [-> _]. reflexivity.
  - discriminate.
  - intros [_ [=]].
Qed.

(** ** When [parse] raises (claims C2, C3) *)

Lemma prepareExpr_throw steps e :
  prepareExpr steps = Throw e <-> e = ParseError /\ underflows steps.
Proof.
  unfold prepareExpr, underflows. rewrite <- prepareLoop_throw.
  destruct (prepareLoop steps []); simpl; split; congruence.
Qed.

Lemma parse_throw expr e :
  parse expr = Throw e <->
  e = ParseError /\
  (includes (fst (resolve (tokenize expr))) "(" = true \/
   exists steps,
     applyPrecedence (tokenize expr) = Ret steps /\ underflows steps).
Proof.
  unfold parse.
  destruct (applyPrecedence (tokenize expr)) as [steps|e'] eqn:Happ; simpl.
  - rewrite prepareExpr_throw. split.
    + intros [-> Hu]. split; [reflexivity|]. right. eauto.
    + intros [-> [Hparen | (steps' & [= <-] & Hu)]]; [|auto].
      assert (Hthrow : applyPrecedence (tokenize expr) = Throw ParseError)
        by (apply applyPrecedence_throw; auto).
      congruence.
  - apply applyPrecedence_throw in Happ as [-> Hparen]. split.
    + intros [= <-]. auto.
    + intros [-> _]. reflexivity.
Qed.

(** C3.  [parse] raises a [ParseError] exactly when an opening parenthesis is
    still on the operator stack at the end of precedence resolution (which is
    when the tokens leave one open), or when the compiler meets an operator
    with too few operands.  It raises nothing else; a closing parenthesis
    without an opening one and operands left over on the stack do not make it
    raise; and evaluating what it returns never raises a [ParseError]. *)
Theorem parse_raises_ParseError_iff :
  (forall expr,
     parse expr = Throw ParseError <->
     includes (fst (resolve (tokenize expr))) "(" = true \/
     exists steps,
       applyPrecedence (tokenize expr) = Ret steps /\ underflows steps) /\
  (forall expr,
     includes (fst (resolve (tokenize expr))) "(" = true <->
     0 < openDepth (tokenize expr)) /\
  (forall expr, parse expr <> Throw TypeError) /\
  (tokenize "public)" = ["public"; ")"] /\ openDepth ["public"; ")"] = 0 /\
   parse "public)" = Ret (Some (scopeLiteral "public")) /\
   parse "public" = Ret (Some (scopeLiteral "public")) /\
   evaluate "public)" sampleInfo sampleFields = Ret ["name"]) /\
  (applyPrecedence (tokenize "(public)private") = Ret ["public"; "private"] /\
   evaluate "(public)private" sampleInfo sampleFields = Ret ["email"; "ssn"]) /\
  (forall expr scopeExpr info fields,
     parse expr = Ret scopeExpr ->
     call scopeExpr info fields <> Throw ParseError).
Proof.
  split; [|split; [|split; [|split; [|split]]]].
  - intros expr. rewrite parse_throw. tauto.
  - intros expr. rewrite includes_parens, resolve_parens. tauto.
  - intros expr H. apply parse_throw in H as [[=] _].
  - repeat split; vm_compute; reflexivity.
  - split; vm_compute; reflexivity.
  - intros expr [f|] info fields Hparse; simpl; [|discriminate].
    intros Hthrow. apply parse_Compiled in Hparse.
    destruct (Compiled_throw f info fields ParseError Hparse Hthrow) as [[=] _].
Qed.

Lemma parse_raises_ParseError_iff_witness :
  parse "(a" = Throw ParseError /\ parse "a&" = Throw ParseError /\
  parse "!" = Throw ParseError.
Proof.
  destruct parse_raises_ParseError_iff as (Hiff & _).
  split; [|split].
  - apply Hiff. left. vm_compute. reflexivity.
  - apply Hiff. right. exists ["a"; "&"]. split; [vm_compute; reflexivity|].
    exists ["a"], [], "&", [scopeLiteral "a"].
    split; [reflexivity|]. split; [reflexivity|].
    left. split; [right; reflexivity | simpl; lia].
  - apply Hiff. right. exists ["!"]. split; [vm_compute; reflexivity|].
    exists [], [], "!", [].
    split; [reflexivity|]. split; [reflexivity|].
    right. split; [reflexivity | simpl; lia].
Defined.

(** C2 fails on the code.  The empty string gives no tokens and the resolver
    gives no steps, as claimed; but the compiler then pops the empty operand
    stack without the test that guards its other pops, and [parse] returns
    [undefined] where a [ParseError] is due.  The failure comes when the
    value is called, and it is a [TypeError]. *)
Theorem parse_empty_returns_undefined :
  tokenize "" = [] /\
  applyPrecedence [] = Ret [] /\
  prepareExpr [] = Ret None /\
  parse "" = Ret None /\
  (forall info fields, evaluate "" info fields = Throw TypeError) /\
  (forall _fields, viewSelected _fields "" = Throw TypeError).
Proof. repeat split. Qed.

(** Nothing is raised for the empty string. *)
Lemma parse_empty_does_not_raise :
  tokenize "" = [] /\ prepareExpr [] <> Throw ParseError /\
  parse "" <> Throw ParseError.
Proof. repeat split; discriminate. Qed.

(** ** The sample of the specification (claim C9) *)

(** C9.  On the sample mapping and fields, ["*&!sensitive"] compiles to the
    negation of the intersection of the literal with the wildcard, and
    evaluates to [id], [name], [email], in that order. *)
Theorem sample_all_but_sensitive :
  tokenize "*&!sensitive" = ["*"; "&"; "!"; "sensitive"] /\
  applyPrecedence ["*"; "&"; "!"; "sensitive"]
  = Ret ["*"; "sensitive"; "&"; "!"] /\
  parse "*&!sensitive"
  = Ret (Some (scopeNegate
                 (scopeIntersect (scopeLiteral "sensitive") scopeWildcard))) /\
  evaluate "*&!sensitive" sampleInfo sampleFields
  = Ret ["id"; "name"; "email"].
Proof. repeat split; vm_compute; reflexivity. Qed.

(** ** The complement law (claim C7) *)

(** X12.  A Negate node and its child split the fields between them. *)
Lemma scopeNegate_partitions f (info : ScopeInfo) fields r :
  Compiled f -> f info fields = Ret r ->
  exists r',
    scopeNegate f info fields = Ret r' /\
    (forall x, In x fields <-> In x r \/ In x r') /\
    (forall x, ~ (In x r /\ In x r')).
Proof.
  intros Hc Hr. unfold scopeNegate. rewrite Hr. simpl.
  eexists. split; [reflexivity|].
  pose proof (Compiled_narrows f info fields Hc r Hr) as Hsub.
  split; intros x; rewrite List.filter_In, negb_true_iff, includes_false.
  - split; [|intros [H|H]; [auto | tauto]].
    intros Hx. destruct (includes r x) eqn:Hi.
    + left. apply includes_In. exact Hi.
    + right. split; [exact Hx|]. apply includes_false. exact Hi.
  - tauto.
Qed.

(** C7 fails on the code.  In ["a|b&c"] two operators are left on the stack
    at the end of the input and come out bottom first, so the expression is
    compiled as [(c|b)&a]; inside the parentheses of ["!(a|b&c)"] the closing
    parenthesis pops them top first, so the operand of the negation is
    [(c&b)|a].  A field whose only scope is [a] is selected by neither. *)
Theorem complement_law_fails_for_trailing_operators :
  let info : ScopeInfo := <["x" := ["a"]]> ∅ in
  applyPrecedence (tokenize "a|b&c") = Ret ["a"; "b"; "c"; "|"; "&"] /\
  applyPrecedence (tokenize "!(a|b&c)") = Ret ["a"; "b"; "c"; "&"; "|"; "!"] /\
  parse "a|b&c"
  = Ret (Some (scopeIntersect
                 (scopeJoin (scopeLiteral "c") (scopeLiteral "b"))
                 (scopeLiteral "a"))) /\
  parse "!(a|b&c)"
  = Ret (Some (scopeNegate
                 (scopeJoin
                    (scopeIntersect (scopeLiteral "c") (scopeLiteral "b"))
                    (scopeLiteral "a")))) /\
  evaluate "a|b&c" info ["x"] = Ret [] /\
  evaluate "!(a|b&c)" info ["x"] = Ret [].
Proof. repeat split; vm_compute; reflexivity. Qed.

(** ** The mapping built by the model layer (claim C10) *)

Lemma scopeInfo_snoc (_fields : FieldMap) name descriptor :
  scopeInfo (_fields ++ [(name, descriptor)])
  = <[name := default [] (scopes descriptor)]> (scopeInfo _fields).
Proof. unfold scopeInfo. rewrite fold_left_app. reflexivity. Qed.

(** Every name of [_fields] is a key of [scopeInfo _fields], bound to the
    scopes of a descriptor entered under that name, or to the empty list when
    that descriptor declares none. *)
Lemma scopeInfo_lookup (_fields : FieldMap) name :
  In name (fieldNames _fields) ->
  exists descriptor,
    In (name, descriptor) _fields /\
    scopeInfo _fields !! name = Some (default [] (scopes descriptor)).
Proof.
  unfold fieldNames.
  induction _fields as [|[n d] _fields IH] using rev_ind; simpl; [tauto|].
  rewrite List.map_app, List.in_app_iff, scopeInfo_snoc. simpl. intros Hin.
  destruct (decide (n = name)) as [->|Hne].
  - exists d. split; [apply List.in_app_iff; right; left; reflexivity|].
    apply lookup_insert_eq.
  - destruct Hin as [Hin | [Heq | []]]; [|congruence].
    destruct (IH Hin) as (d' & Hd' & Hlook). exists d'.
    split; [apply List.in_app_iff; left; exact Hd'|].
    rewrite lookup_insert_ne by exact Hne. exact Hlook.
Qed.

Lemma scopeInfo_covers (_fields : FieldMap) :
  Forall (fun x => is_Some (scopeInfo _fields !! x)) (fieldNames _fields).
Proof.
  apply List.Forall_forall. intros name Hin.
  destruct (scopeInfo_lookup _fields name Hin) as (d & _ & ->). eauto.
Qed.

(** C10.  A compiled expression returns normally whenever every field is a key
    of the mapping.  [scopeInfo] binds every declared field name to a list,
    the declared scopes or the empty list, so the evaluation that [Model.view]
    runs over the declared field names returns normally for every expression
    that [parse] compiles. *)
Theorem scopeInfo_makes_evaluation_total :
  (forall f (info : ScopeInfo) fields,
     Compiled f ->
     Forall (fun x => is_Some (info !! x)) fields ->
     exists result, f info fields = Ret result) /\
  (forall (_fields : FieldMap) name,
     In name (fieldNames _fields) ->
     exists descriptor,
       In (name, descriptor) _fields /\
       scopeInfo _fields !! name = Some (default [] (scopes descriptor))) /\
  (forall (_fields : FieldMap) expr f,
     parse expr = Ret (Some f) ->
     exists selected,
       viewSelected _fields expr = Ret selected /\
       f (scopeInfo _fields) (fieldNames _fields) = Ret selected).
Proof.
  split; [intros f info fields; apply Compiled_total|].
  split; [apply scopeInfo_lookup|].
  intros _fields expr f Hparse. unfold viewSelected. rewrite Hparse. simpl.
  destruct (Compiled_total f (scopeInfo _fields) (fieldNames _fields))
    as [selected Hsel].
  - eapply parse_Compiled. exact Hparse.
  - apply scopeInfo_covers.
  - exists selected. auto.
Qed.

Lemma scopeInfo_makes_evaluation_total_witness :
  exists selected,
    viewSelected
      [("id", {| scopes := None |});
       ("name", {| scopes := Some ["public"] |});
       ("ssn", {| scopes := Some ["private"; "sensitive"] |})]
      "*&!sensitive"
    = Ret selected /\
    scopeNegate (scopeIntersect (scopeLiteral "sensitive") scopeWildcard)
      (scopeInfo
         [("id", {| scopes := None |});
          ("name", {| scopes := Some ["public"] |});
          ("ssn", {| scopes := Some ["private"; "sensitive"] |})])
      (fieldNames
         [("id", {| scopes := None |});
          ("name", {| scopes := Some ["public"] |});
          ("ssn", {| scopes := Some ["private"; "sensitive"] |})])
    = Ret selected.
Proof.
  destruct scopeInfo_makes_evaluation_total as (_ & _ & Hview).
  apply Hview. vm_compute. reflexivity.
Defined.

(** ** The tokens *)

Lemma isSeparator_cases c :
  isSeparator c = true ->
  String c "" = "(" \/ String c "" = ")" \/ String c "" = "|" \/
  String c "" = "&" \/ String c "" = "!".
Proof.
  destruct c as [[] [] [] [] [] [] [] []]; simpl; intros H;
    try discriminate; tauto.
Qed.

Lemma isSeparator_not_white c : isSeparator c = true -> isWhiteSpace c = false.
Proof.
  destruct c as [[] [] [] [] [] [] [] []]; simpl; intros H;
    try discriminate; reflexivity.
Qed.

Lemma append_assoc' (a b c : string) : (a +:+ b) +:+ c = a +:+ (b +:+ c).
Proof.
  induction a as [|x a IH]; [reflexivity|].
  change (String x ((a +:+ b) +:+ c) = String x (a +:+ (b +:+ c))).
  f_equal. exact IH.
Qed.

Lemma allChars_app p a b :
  allChars p (a +:+ b) = allChars p a && allChars p b.
Proof.
  induction a as [|x a IH]; simpl; [reflexivity|].
  rewrite IH, andb_assoc. reflexivity.
Qed.

Lemma trimStart_allChars p s :
  allChars p s = true -> allChars p (trimStart s) = true.
Proof.
  induction s as [|c s IH]; simpl; [reflexivity|].
  intros H. destruct (isWhiteSpace c); [|exact H].
  apply andb_true_iff in H as [_ H]. apply IH, H.
Qed.

Lemma trimEnd_allChars p s :
  allChars p s = true -> allChars p (trimEnd s) = true.
Proof.
  induction s as [|c s IH]; simpl; [reflexivity|].
  intros H. apply andb_true_iff in H as [Hc Hs]. specialize (IH Hs).
  destruct (trimEnd s) as [|c' s'].
  - destruct (isWhiteSpace c); simpl; [reflexivity | rewrite Hc; reflexivity].
  - simpl in *. rewrite Hc. exact IH.
Qed.

Lemma trimEnd_cons c s :
  trimEnd (String c s)
  = match trimEnd s with
    | EmptyString =>
        if isWhiteSpace c then EmptyString else String c EmptyString
    | rest' => String c rest'
    end.
Proof. reflexivity. Qed.

Lemma trimEnd_idem s : trimEnd (trimEnd s) = trimEnd s.
Proof.
  induction s as [|c s IH]; [reflexivity|].
  rewrite (trimEnd_cons c s).
  destruct (trimEnd s) as [|c' s'] eqn:Hs.
  - destruct (isWhiteSpace c) eqn:Hc; [reflexivity|].
    rewrite trimEnd_cons. simpl. rewrite Hc. reflexivity.
  - rewrite trimEnd_cons, IH. reflexivity.
Qed.

Lemma trimStart_startsBlack s : startsBlack (trimStart s) = true.
Proof.
  induction s as [|c s IH]; simpl; [reflexivity|].
  destruct (isWhiteSpace c) eqn:Hc; [exact IH|]. simpl. rewrite Hc. reflexivity.
Qed.

Lemma trimStart_id s : startsBlack s = true -> trimStart s = s.
Proof.
  destruct s as [|c s]; simpl; [reflexivity|].
  intros H. apply negb_true_iff in H. rewrite H. reflexivity.
Qed.

Lemma trimEnd_startsBlack s :
  startsBlack s = true -> startsBlack (trimEnd s) = true.
Proof.
  destruct s as [|c s]; simpl; [reflexivity|].
  intros H. destruct (trimEnd s).
  - apply negb_true_iff in H. rewrite H. simpl. rewrite H. reflexivity.
  - simpl. exact H.
Qed.

Lemma trim_idem s : trim (trim s) = trim s.
Proof.
  unfold trim.
  rewrite (trimStart_id (trimEnd (trimStart s))).
  - apply trimEnd_idem.
  - apply trimEnd_startsBlack, trimStart_startsBlack.
Qed.

Lemma trim_black s :
  allChars (fun c => negb (isWhiteSpace c)) s = true -> trim s = s.
Proof.
  intros H. unfold trim.
  assert (Hs : trimStart s = s).
  { destruct s as [|c s]; simpl in *; [reflexivity|].
    apply andb_true_iff in H as [Hc _]. apply negb_true_iff in Hc.
    rewrite Hc. reflexivity. }
  rewrite Hs. clear Hs.
  induction s as [|c s IH]; simpl in *; [reflexivity|].
  apply andb_true_iff in H as [Hc Hs]. rewrite (IH Hs).
  destruct s; [|reflexivity].
  apply negb_true_iff in Hc. rewrite Hc. reflexivity.
Qed.

(** The pieces cut by [split] are separators or are free of separators. *)
Lemma split_pieces s :
  forall cur,
    allChars (fun c => negb (isSeparator c)) cur = true ->
    Forall
      (fun piece =>
         (piece = "(" \/ piece = ")" \/ piece = "|" \/ piece = "&" \/
          piece = "!") \/
         allChars (fun c => negb (isSeparator c)) piece = true)
      (split cur s).
Proof.
  induction s as [|c s IH]; intros cur Hcur; simpl.
  - constructor; [right; exact Hcur | constructor].
  - destruct (isSeparator c) eqn:Hc.
    + constructor; [right; exact Hcur|].
      constructor; [left; apply isSeparator_cases, Hc|].
      apply IH. reflexivity.
    + apply IH. rewrite allChars_app, Hcur. simpl. rewrite Hc. reflexivity.
Qed.

Lemma split_pieces_allChars p s :
  forall cur,
    allChars p cur = true -> allChars p s = true ->
    Forall (fun piece => allChars p piece = true) (split cur s).
Proof.
  induction s as [|c s IH]; intros cur Hcur Hs; simpl.
  - constructor; [exact Hcur | constructor].
  - simpl in Hs. apply andb_true_iff in Hs as [Hc Hs].
    destruct (isSeparator c).
    + constructor; [exact Hcur|].
      constructor; [simpl; rewrite Hc; reflexivity|].
      apply IH; [reflexivity | exact Hs].
    + apply IH; [|exact Hs].
      rewrite allChars_app, Hcur. simpl. rewrite Hc. reflexivity.
Qed.

Lemma joinTokens_split s :
  forall cur, joinTokens (split cur s) = cur +:+ s.
Proof.
  induction s as [|c s IH]; intros cur; simpl.
  - reflexivity.
  - destruct (isSeparator c); simpl; rewrite IH.
    + reflexivity.
    + rewrite append_assoc'. reflexivity.
Qed.

Lemma joinTokens_filter_truthy l :
  joinTokens (List.filter truthy l) = joinTokens l.
Proof.
  induction l as [|t l IH]; simpl; [reflexivity|].
  destruct t as [|c t]; simpl; [exact IH | rewrite IH; reflexivity].
Qed.

(** X1.  Every token is non-empty and has no white space at either end; it
    is one of the five separators, or it contains none of them. *)
Theorem tokenize_tokens_wellformed (expr t : string) :
  In t (tokenize expr) ->
  t <> "" /\
  trim t = t /\
  ((t = "(" \/ t = ")" \/ t = "|" \/ t = "&" \/ t = "!") \/
   allChars (fun c => negb (isSeparator c)) t = true).
Proof.
  unfold tokenize. intros Hin.
  apply List.filter_In in Hin as [Hin Htruthy].
  apply List.in_map_iff in Hin as (piece & <- & Hpiece).
  split; [intros Heq; rewrite Heq in Htruthy; discriminate|].
  split; [apply trim_idem|].
  pose proof (split_pieces expr "" eq_refl) as Hall.
  rewrite List.Forall_forall in Hall.
  destruct (Hall piece Hpiece) as [Hsep | Hfree].
  - left. destruct Hsep as [-> | [-> | [-> | [-> | ->]]]]; cbn; tauto.
  - right. unfold trim. apply trimEnd_allChars, trimStart_allChars, Hfree.
Qed.

Lemma tokenize_tokens_wellformed_witness :
  "b c" <> "" /\
  trim "b c" = "b c" /\
  (("b c" = "(" \/ "b c" = ")" \/ "b c" = "|" \/ "b c" = "&" \/
    "b c" = "!") \/
   allChars (fun c => negb (isSeparator c)) "b c" = true).
Proof.
  apply (tokenize_tokens_wellformed " a & ( b c |d)").
  vm_compute. tauto.
Defined.

(** X2.  On an expression without white space the tokens, written one after
    the other, give the expression back. *)
Theorem tokenize_joins_back (expr : string) :
  allChars (fun c => negb (isWhiteSpace c)) expr = true ->
  joinTokens (tokenize expr) = expr.
Proof.
  intros Hblack. unfold tokenize. rewrite joinTokens_filter_truthy.
  pose proof (split_pieces_allChars _ expr "" eq_refl Hblack) as Hall.
  rewrite <- (joinTokens_split expr "") at 2.
  f_equal. induction Hall as [|piece l Hp _ IH]; simpl; [reflexivity|].
  rewrite (trim_black piece Hp), IH. reflexivity.
Qed.

Lemma tokenize_joins_back_witness :
  joinTokens (tokenize "!(a|b)&c") = "!(a|b)&c".
Proof. apply tokenize_joins_back. vm_compute. reflexivity. Defined.

(** ** What the resolver keeps of the tokens *)

Lemma isOperator_not_paren t : isOperator t = true -> isParen t = false.
Proof.
  intros H. apply isOperator_cases in H as [-> | [-> | ->]]; reflexivity.
Qed.

Lemma filter_all (p : string -> bool) l :
  (forall x, In x l -> p x = true) -> List.filter p l = l.
Proof.
  induction l as [|x l IH]; intros H; simpl; [reflexivity|].
  rewrite (H x) by (left; reflexivity). f_equal.
  apply IH. intros y Hy. apply H. right. exact Hy.
Qed.

Lemma filter_none (p : string -> bool) l :
  (forall x, In x l -> p x = false) -> List.filter p l = [].
Proof.
  induction l as [|x l IH]; intros H; simpl; [reflexivity|].
  rewrite (H x) by (left; reflexivity).
  apply IH. intros y Hy. apply H. right. exact Hy.
Qed.

(** What the inner loops pop are operators. *)
Lemma popped_operators (ops popped : list string) :
  (forall t, In t ops -> isOperator t = true \/ t = "(") ->
  (forall t, In t popped -> In t ops) ->
  Forall (fun t => t <> "(") popped ->
  forall t, In t popped -> isOperator t = true.
Proof.
  intros Hops Hsub Hnp t Ht. rewrite List.Forall_forall in Hnp.
  destruct (Hops t (Hsub t Ht)) as [H | H]; [exact H|].
  exfalso. exact (Hnp t Ht H).
Qed.

(** One turn keeps the operator stack made of operators and opening
    parentheses, moves tokens without losing or inventing any, and sends the
    literals to the output in the order they come. *)
Lemma resolveStep_conserves opStack outputStack current :
  (forall t, In t opStack -> isOperator t = true \/ t = "(") ->
  (forall t, In t (fst (resolveStep (opStack, outputStack) current)) ->
             isOperator t = true \/ t = "(") /\
  Permutation
    (List.filter (fun t => negb (isParen t))
       (fst (resolveStep (opStack, outputStack) current))
     ++ snd (resolveStep (opStack, outputStack) current))
    ((List.filter (fun t => negb (isParen t)) opStack ++ outputStack)
     ++ List.filter (fun t => negb (isParen t)) [current]) /\
  List.filter isLiteralToken
    (snd (resolveStep (opStack, outputStack) current))
  = List.filter isLiteralToken outputStack
    ++ List.filter isLiteralToken [current].
Proof.
  intros Hops.
  destruct (token_cases current) as [Hop | [-> | [-> | (Hop & H1 & H2)]]].
  - destruct (resolveStep_operator opStack outputStack current Hop)
      as (keep & popped & -> & -> & Hall & _).
    assert (Hpop : forall t, In t popped -> isOperator t = true).
    { apply (popped_operators (keep ++ popped)); auto.
      - intros t Ht. apply List.in_app_iff. right. exact Ht.
      - eapply Forall_impl; [exact Hall|].
        intros t. apply stopsOperators_false_not_paren. }
    simpl. unfold push, isLiteralToken.
    rewrite !List.filter_app. simpl.
    rewrite (isOperator_not_paren current Hop), Hop. simpl.
    rewrite (filter_all _ popped)
      by (intros t Ht; rewrite (isOperator_not_paren t (Hpop t Ht));
          reflexivity).
    rewrite (filter_none _ (rev popped))
      by (intros t Ht; apply List.in_rev in Ht; rewrite (Hpop t Ht);
          reflexivity).
    rewrite !app_nil_r. split; [|split; [|reflexivity]].
    + intros t Ht. apply List.in_app_iff in Ht as [Ht | [<- | []]].
      * apply Hops. apply List.in_app_iff. left. exact Ht.
      * left. exact Hop.
    + rewrite <- (Permutation_rev popped). solve_Permutation.
  - rewrite resolveStep_open. simpl. unfold push.
    rewrite List.filter_app. simpl. rewrite !app_nil_r.
    split; [|split; reflexivity].
    intros t Ht. apply List.in_app_iff in Ht as [Ht | [<- | []]]; auto.
  - destruct (resolveStep_close opStack outputStack)
      as (keep & popped & -> & -> & Hall & Hkeep).
    assert (Hpop : forall t, In t popped -> isOperator t = true).
    { apply (popped_operators (keep ++ popped)); auto.
      intros t Ht. apply List.in_app_iff. right. exact Ht. }
    simpl. unfold isLiteralToken. rewrite !List.filter_app.
    rewrite (filter_all _ popped)
      by (intros t Ht; rewrite (isOperator_not_paren t (Hpop t Ht));
          reflexivity).
    rewrite (filter_none _ (rev popped))
      by (intros t Ht; apply List.in_rev in Ht; rewrite (Hpop t Ht);
          reflexivity).
    rewrite !app_nil_r.
    assert (Hfk : List.filter (fun t => negb (isParen t)) (pop keep)
                  = List.filter (fun t => negb (isParen t)) keep).
    { destruct Hkeep as [-> | (keep' & ->)]; [reflexivity|].
      rewrite pop_push. unfold push. rewrite List.filter_app. simpl.
      rewrite app_nil_r. reflexivity. }
    rewrite Hfk. split; [|split; [|reflexivity]].
    + intros t Ht. apply Hops. apply List.in_app_iff. left.
      destruct Hkeep as [-> | (keep' & ->)]; [destruct Ht|].
      rewrite pop_push in Ht. unfold push. apply List.in_app_iff. left.
      exact Ht.
    + rewrite <- (Permutation_rev popped). solve_Permutation.
  - rewrite resolveStep_literal by assumption. simpl. unfold push.
    assert (Hnp : isParen current = false).
    { unfold isParen. apply String.eqb_neq in H1, H2. rewrite H1, H2.
      reflexivity. }
    unfold isLiteralToken. rewrite List.filter_app. simpl.
    rewrite Hnp, Hop. simpl. split; [exact Hops|].
    split; [solve_Permutation | reflexivity].
Qed.

Lemma resolve_conserves tokens :
  (forall t, In t (fst (resolve tokens)) -> isOperator t = true \/ t = "(") /\
  Permutation
    (List.filter (fun t => negb (isParen t)) (fst (resolve tokens))
     ++ snd (resolve tokens))
    (List.filter (fun t => negb (isParen t)) tokens) /\
  List.filter isLiteralToken (snd (resolve tokens))
  = List.filter isLiteralToken tokens.
Proof.
  induction tokens as [|current tokens IH] using rev_ind.
  - simpl. split; [tauto|]. split; [constructor | reflexivity].
  - rewrite resolve_app. simpl.
    destruct (resolve tokens) as [opStack outputStack]. simpl in IH.
    destruct IH as (Hops & Hperm & Hlit).
    destruct (resolveStep_conserves opStack outputStack current Hops)
      as (Hops' & Hperm' & Hlit').
    split; [exact Hops'|]. rewrite !List.filter_app. split.
    + rewrite Hperm', Hperm. reflexivity.
    + rewrite Hlit', Hlit. reflexivity.
Qed.

(** When no parenthesis is left, the operator stack holds operators only. *)
Lemma final_stack_operators tokens :
  includes (fst (resolve tokens)) "(" = false ->
  List.filter (fun t => negb (isParen t)) (fst (resolve tokens))
  = fst (resolve tokens) /\
  List.filter isLiteralToken (fst (resolve tokens)) = [].
Proof.
  intros Hnp. destruct (resolve_conserves tokens) as (Hops & _ & _).
  apply includes_false in Hnp.
  assert (H : forall t, In t (fst (resolve tokens)) -> isOperator t = true).
  { intros t Ht. destruct (Hops t Ht) as [H | ->]; [exact H|].
    exfalso. exact (Hnp Ht). }
  split.
  - apply filter_all. intros t Ht.
    rewrite (isOperator_not_paren t (H t Ht)). reflexivity.
  - apply filter_none. intros t Ht. unfold isLiteralToken.
    rewrite (H t Ht). reflexivity.
Qed.

(** X3.  The postfix sequence is a rearrangement of the tokens other than
    parentheses: no token is lost, none is invented, and no parenthesis is
    ever sent to the compiler. *)
Theorem applyPrecedence_permutes_tokens (tokens steps : list string) :
  applyPrecedence tokens = Ret steps ->
  Permutation steps (List.filter (fun t => negb (isParen t)) tokens) /\
  Forall (fun t => t <> "(" /\ t <> ")") steps.
Proof.
  unfold applyPrecedence. intros Happ.
  destruct (resolve_conserves tokens) as (_ & Hperm & _).
  pose proof (final_stack_operators tokens) as Hfinal.
  destruct (resolve tokens) as [opStack outputStack]. simpl in *.
  destruct (includes opStack "(") eqn:Hnp; [discriminate|].
  injection Happ as <-. destruct (Hfinal eq_refl) as [Hf _].
  rewrite Hf in Hperm.
  assert (Hp : Permutation (outputStack ++ opStack)
                 (List.filter (fun t => negb (isParen t)) tokens)).
  { rewrite <- Hperm. solve_Permutation. }
  split; [exact Hp|].
  apply List.Forall_forall. intros t Ht.
  apply (Permutation_in _ Hp) in Ht. apply List.filter_In in Ht as [_ Ht].
  apply negb_true_iff in Ht. unfold isParen in Ht.
  apply orb_false_iff in Ht as [Ha Hb].
  apply String.eqb_neq in Ha, Hb. auto.
Qed.

Lemma applyPrecedence_permutes_tokens_witness :
  Permutation ["a"; "b"; "c"; "&"; "|"; "!"]
    (List.filter (fun t => negb (isParen t))
       ["!"; "("; "a"; "|"; "b"; "&"; "c"; ")"]) /\
  Forall (fun t => t <> "(" /\ t <> ")") ["a"; "b"; "c"; "&"; "|"; "!"].
Proof.
  apply (applyPrecedence_permutes_tokens
           ["!"; "("; "a"; "|"; "b"; "&"; "c"; ")"]).
  reflexivity.
Defined.

(** X4.  The literals reach the compiler in the order in which they are
    written. *)
Theorem applyPrecedence_keeps_literal_order (tokens steps : list string) :
  applyPrecedence tokens = Ret steps ->
  List.filter isLiteralToken steps = List.filter isLiteralToken tokens.
Proof.
  unfold applyPrecedence. intros Happ.
  destruct (resolve_conserves tokens) as (_ & _ & Hlit).
  pose proof (final_stack_operators tokens) as Hfinal.
  destruct (resolve tokens) as [opStack outputStack]. simpl in *.
  destruct (includes opStack "(") eqn:Hnp; [discriminate|].
  injection Happ as <-. destruct (Hfinal eq_refl) as [_ Hf].
  rewrite List.filter_app, Hf, app_nil_r. exact Hlit.
Qed.

Lemma applyPrecedence_keeps_literal_order_witness :
  List.filter isLiteralToken ["a"; "b"; "c"; "&"; "|"; "!"]
  = List.filter isLiteralToken ["!"; "("; "a"; "|"; "b"; "&"; "c"; ")"].
Proof.
  apply (applyPrecedence_keeps_literal_order
           ["!"; "("; "a"; "|"; "b"; "&"; "c"; ")"]).
  reflexivity.
Defined.

(** ** Parentheses and the order of the trailing operators *)

Lemma applyPrecedence_Ret tokens steps :
  applyPrecedence tokens = Ret steps <->
  includes (fst (resolve tokens)) "(" = false /\
  steps = snd (resolve tokens) ++ fst (resolve tokens).
Proof.
  unfold applyPrecedence. destruct (resolve tokens) as [opStack outputStack].
  simpl. destruct (includes opStack "("); split.
  - discriminate.
  - intros [[=] _].
  - intros [= <-]. auto.
  - intros [_ ->]. reflexivity.
Qed.

(** X5.  A closing parenthesis that finds nothing open empties the operator
    stack by popping: after it, the operators that were waiting come out top
    first, not bottom first as at the end of the input. *)
Theorem unmatched_close_drains_by_pop
    (tokens opStack outputStack : list string) :
  resolve tokens = (opStack, outputStack) ->
  includes opStack "(" = false ->
  resolve (tokens ++ [")"]) = ([], drainByPop opStack outputStack) /\
  applyPrecedence (tokens ++ [")"]) = Ret (drainByPop opStack outputStack).
Proof.
  intros Hres Hnp.
  assert (Hstate : resolve (tokens ++ [")"])
                   = ([], drainByPop opStack outputStack)).
  { rewrite resolve_app, Hres. cbn [fold_left].
    destruct (resolveStep_close opStack outputStack)
      as (keep & popped & -> & -> & _ & Hkeep).
    rewrite drainByPop_rev.
    destruct Hkeep as [-> | (keep' & ->)]; [reflexivity|].
    exfalso. apply includes_false in Hnp. apply Hnp.
    unfold push. rewrite !List.in_app_iff. simpl. tauto. }
  split; [exact Hstate|].
  unfold applyPrecedence. rewrite Hstate. simpl. rewrite app_nil_r.
  reflexivity.
Qed.

Lemma unmatched_close_drains_by_pop_witness :
  resolve (["a"; "|"; "b"; "&"; "c"] ++ [")"])
  = ([], drainByPop ["|"; "&"] ["a"; "b"; "c"]) /\
  applyPrecedence (["a"; "|"; "b"; "&"; "c"] ++ [")"])
  = Ret (drainByPop ["|"; "&"] ["a"; "b"; "c"]).
Proof.
  apply (unmatched_close_drains_by_pop ["a"; "|"; "b"; "&"; "c"]);
    reflexivity.
Defined.

(** Under an opening parenthesis the inner loops behave as on a stack of
    their own. *)
Lemma popWhile_frame stop base opStack :
  stop "(" = true ->
  forall outputStack,
    popWhile (length (base ++ "(" :: opStack)) stop (base ++ "(" :: opStack)
      outputStack
    = (base ++ "("
         :: fst (popWhile (length opStack) stop opStack outputStack),
       snd (popWhile (length opStack) stop opStack outputStack)).
Proof.
  intros Hstop.
  induction opStack as [|t opStack IH] using rev_ind; intros outputStack.
  - replace (base ++ ["("]) with (push base "(") by reflexivity.
    rewrite length_push. simpl. rewrite top_push, Hstop. reflexivity.
  - replace (base ++ "(" :: opStack ++ [t])
      with (push (base ++ "(" :: opStack) t)
      by (unfold push; rewrite <- app_assoc; reflexivity).
    replace (opStack ++ [t]) with (push opStack t) by reflexivity.
    rewrite !length_push. simpl. rewrite !top_push, !pop_push.
    destruct (stop t).
    + simpl. unfold push. rewrite <- app_assoc. reflexivity.
    + apply IH.
Qed.

Lemma resolveStep_close_eq opStack outputStack :
  resolveStep (opStack, outputStack) ")"
  = (pop (fst (popWhile (length opStack) (fun t => String.eqb t "(")
                 opStack outputStack)),
     snd (popWhile (length opStack) (fun t => String.eqb t "(")
            opStack outputStack)).
Proof.
  unfold resolveStep. simpl. rewrite popToParen_popWhile.
  destruct (popWhile (length opStack) (fun t => String.eqb t "(") opStack
              outputStack).
  reflexivity.
Qed.

Lemma resolveStep_frame base opStack outputStack current :
  (current = ")" -> 0 < parens opStack) ->
  resolveStep (base ++ "(" :: opStack, outputStack) current
  = (base ++ "(" :: fst (resolveStep (opStack, outputStack) current),
     snd (resolveStep (opStack, outputStack) current)).
Proof.
  intros Hclose.
  destruct (token_cases current) as [Hop | [-> | [-> | (Hop & H1 & H2)]]].
  - unfold resolveStep. rewrite Hop, !popOperators_popWhile.
    rewrite popWhile_frame by reflexivity.
    destruct (popWhile (length opStack) (stopsOperators (opPrecedence current))
                opStack outputStack) as [keep out'].
    simpl. unfold push. rewrite <- app_assoc. reflexivity.
  - rewrite !resolveStep_open. simpl. unfold push.
    rewrite <- app_assoc. reflexivity.
  - specialize (Hclose eq_refl). rewrite !resolveStep_close_eq.
    rewrite popWhile_frame by reflexivity. simpl.
    destruct (popWhile_spec (fun t => String.eqb t "(") opStack outputStack)
      as (keep & popped & Hsplit & Heq & Hall & _).
    rewrite Heq. simpl.
    assert (Hne : keep <> []).
    { intros ->. simpl in Hsplit. subst opStack.
      rewrite parens_none in Hclose; [lia|].
      eapply Forall_impl; [exact Hall|]. simpl.
      intros t Ht. apply String.eqb_neq. exact Ht. }
    unfold pop. rewrite removelast_app by (intros [=]). simpl.
    destruct keep; [congruence | reflexivity].
  - rewrite !resolveStep_literal by assumption. reflexivity.
Qed.

Lemma fold_resolveStep_frame base tokens :
  forall opStack outputStack,
    closesOnlyOpen (parens opStack) tokens = true ->
    fold_left resolveStep tokens (base ++ "(" :: opStack, outputStack)
    = (base ++ "("
         :: fst (fold_left resolveStep tokens (opStack, outputStack)),
       snd (fold_left resolveStep tokens (opStack, outputStack))).
Proof.
  induction tokens as [|t tokens IH]; intros opStack outputStack Hwn.
  - reflexivity.
  - cbn [fold_left]. rewrite resolveStep_frame.
    + pose proof (resolveStep_parens (opStack, outputStack) t) as Hpar.
      destruct (resolveStep (opStack, outputStack) t) as [opStack' out'].
      simpl in Hpar. simpl fst. simpl snd. apply IH.
      rewrite Hpar. simpl in Hwn. unfold depthStep.
      destruct (String.eqb t "("); [exact Hwn|].
      destruct (String.eqb t ")"); [|exact Hwn].
      destruct (parens opStack); [discriminate | exact Hwn].
    + intros ->. simpl in Hwn. destruct (parens opStack); [discriminate|lia].
Qed.

(** X6.  Parentheses around a whole expression change the order of the
    operators at its end: where the bare tokens leave the operators [opStack]
    to be appended bottom first, the same tokens between parentheses have
    them popped, top first. *)
Theorem parenthesized_drains_by_pop
    (tokens opStack outputStack : list string) :
  closesOnlyOpen 0 tokens = true ->
  openDepth tokens = 0 ->
  resolve tokens = (opStack, outputStack) ->
  applyPrecedence tokens = Ret (outputStack ++ opStack) /\
  applyPrecedence ("(" :: tokens ++ [")"])
  = Ret (outputStack ++ rev opStack).
Proof.
  intros Hwn Hdepth Hres.
  assert (Hpar : parens opStack = 0).
  { pose proof (resolve_parens tokens) as H. rewrite Hres in H.
    simpl in H. lia. }
  assert (Hnp : includes opStack "(" = false).
  { destruct (includes opStack "(") eqn:H; [|reflexivity].
    apply includes_parens in H. lia. }
  split.
  { unfold applyPrecedence. rewrite Hres, Hnp. reflexivity. }
  unfold applyPrecedence, resolve.
  change ("(" :: tokens ++ [")"]) with (["("] ++ tokens ++ [")"]).
  rewrite !fold_left_app. cbn [fold_left app].
  change (resolveStep ([], []) "(") with (([] : list string) ++ "(" :: [], ([] : list string)).
  rewrite fold_resolveStep_frame by exact Hwn.
  fold (resolve tokens). rewrite Hres. cbn [fst snd app].
  rewrite resolveStep_close_eq.
  change ("(" :: opStack) with ([] ++ "(" :: opStack).
  rewrite popWhile_frame by reflexivity. cbn [app fst snd].
  destruct (popWhile_spec (fun t => String.eqb t "(") opStack outputStack)
    as (keep & popped & Hsplit & Heq & _ & Htop).
  rewrite Heq. cbn [fst snd].
  assert (Hk : keep = []).
  { destruct (top keep) as [t|] eqn:Hk; [|apply top_None; exact Hk].
    exfalso. apply String.eqb_eq in Htop. subst t.
    apply top_Some in Hk. apply includes_false in Hnp. apply Hnp.
    rewrite Hsplit, Hk. unfold push. rewrite !List.in_app_iff. simpl. tauto. }
  subst keep. simpl in Hsplit. subst popped. simpl. rewrite app_nil_r.
  reflexivity.
Qed.

Lemma parenthesized_drains_by_pop_witness :
  applyPrecedence ["a"; "|"; "b"; "&"; "c"]
  = Ret (["a"; "b"; "c"] ++ ["|"; "&"]) /\
  applyPrecedence ("(" :: ["a"; "|"; "b"; "&"; "c"] ++ [")"])
  = Ret (["a"; "b"; "c"] ++ rev ["|"; "&"]).
Proof.
  apply (parenthesized_drains_by_pop ["a"; "|"; "b"; "&"; "c"]); reflexivity.
Defined.

(** ** What the compiler leaves on its stack *)

Lemma prepareStep_length stack s stack' :
  prepareStep stack s = Ret stack' ->
  1 <= length stack' /\
  length stack' + length (List.filter isBinary [s])
  = length stack + length (List.filter (fun t => negb (isOperator t)) [s]).
Proof.
  unfold prepareStep, isBinary, isOperator. simpl.
  destruct (String.eqb s "|").
  { destruct stack as [|l [|r stack]]; try discriminate.
    intros [= <-]. simpl. lia. }
  destruct (String.eqb s "&").
  { destruct stack as [|l [|r stack]]; try discriminate.
    intros [= <-]. simpl. lia. }
  destruct (String.eqb s "!").
  { destruct stack as [|l stack]; try discriminate.
    intros [= <-]. simpl. lia. }
  destruct (String.eqb s "*"); intros [= <-]; simpl; lia.
Qed.

Lemma prepareLoop_length steps :
  forall stack stack',
    prepareLoop steps stack = Ret stack' ->
    (steps <> [] -> 1 <= length stack') /\
    length stack' + length (List.filter isBinary steps)
    = length stack
      + length (List.filter (fun t => negb (isOperator t)) steps).
Proof.
  induction steps as [|s steps IH]; intros stack stack'; simpl.
  - intros [= <-]. split; [congruence | lia].
  - destruct (prepareStep stack s) as [stack1|] eqn:Hstep; simpl;
      [|discriminate].
    intros Hloop. apply prepareStep_length in Hstep as [Hpos Hlen].
    destruct (IH stack1 stack' Hloop) as [Hne Hcount].
    simpl in Hlen. split.
    + intros _. destruct steps as [|s' steps'].
      * simpl in Hloop. injection Hloop as <-. exact Hpos.
      * apply Hne. discriminate.
    + destruct (isBinary s), (negb (isOperator s)); simpl in *; lia.
Qed.

(** X7.  When the compiler succeeds, the nodes left on its stack are as many
    as the operands written minus the binary operators applied; [parse]
    returns the topmost and drops the others.  Only the empty sequence of
    steps leaves none, and then the value returned is [undefined]. *)
Theorem prepareExpr_residue (steps : list string) (stack : list ScopeExpr) :
  prepareLoop steps [] = Ret stack ->
  length stack + length (List.filter isBinary steps)
  = length (List.filter (fun t => negb (isOperator t)) steps) /\
  prepareExpr steps = Ret (head stack) /\
  (head stack = None <-> steps = []).
Proof.
  intros Hloop.
  destruct (prepareLoop_length steps [] stack Hloop) as [Hne Hcount].
  split; [simpl in Hcount; exact Hcount|].
  split; [unfold prepareExpr; rewrite Hloop; reflexivity|].
  split.
  - intros Hhead. destruct steps as [|s steps]; [reflexivity|].
    assert (1 <= length stack) by (apply Hne; discriminate).
    destruct stack; [simpl in *; lia | discriminate].
  - intros ->. simpl in Hloop. injection Hloop as <-. reflexivity.
Qed.

Lemma prepareExpr_residue_witness :
  length [scopeLiteral "b"; scopeLiteral "a"]
  + length (List.filter isBinary ["a"; "b"])
  = length (List.filter (fun t => negb (isOperator t)) ["a"; "b"]) /\
  prepareExpr ["a"; "b"] = Ret (head [scopeLiteral "b"; scopeLiteral "a"]) /\
  (head [scopeLiteral "b"; scopeLiteral "a"] = None <-> ["a"; "b"] = []).
Proof.
  apply (prepareExpr_residue ["a"; "b"] [scopeLiteral "b"; scopeLiteral "a"]).
  reflexivity.
Defined.

Lemma prepareExpr_steps_nil steps (stack : list ScopeExpr) :
  prepareLoop steps [] = Ret stack -> None = head stack -> steps = [].
Proof.
  intros Hloop Hhead. destruct steps as [|s steps]; [reflexivity|].
  destruct (prepareLoop_length (s :: steps) [] stack Hloop) as [Hne _].
  assert (1 <= length stack) by (apply Hne; discriminate).
  destruct stack; [simpl in *; lia | discriminate].
Qed.

(** X8.  [parse] returns [undefined] exactly for the expressions whose
    tokens are all parentheses, none of them left open: the empty string,
    white space, ["()"], [")"] and the like. *)
Theorem parse_undefined_iff (expr : string) :
  parse expr = Ret None <->
  openDepth (tokenize expr) = 0 /\
  Forall (fun t => isParen t = true) (tokenize expr).
Proof.
  unfold parse.
  pose proof (resolve_conserves (tokenize expr)) as (_ & Hperm & _).
  pose proof (final_stack_operators (tokenize expr)) as Hfinal.
  pose proof (includes_parens (fst (resolve (tokenize expr)))) as Hinc.
  rewrite resolve_parens in Hinc.
  split.
  - destruct (applyPrecedence (tokenize expr)) as [steps|] eqn:Happ;
      simpl; [|discriminate].
    intros Hprep.
    apply (applyPrecedence_Ret (tokenize expr)) in Happ as [Hnp Hsteps].
    assert (steps = []) as ->.
    { unfold prepareExpr in Hprep.
      destruct (prepareLoop steps []) as [stack|] eqn:Hloop; simpl in Hprep;
        [|discriminate].
      injection Hprep as Hhead. symmetry in Hhead.
      apply (prepareExpr_steps_nil steps stack Hloop Hhead). }
    split.
    + destruct (openDepth (tokenize expr)); [reflexivity|].
      assert (includes (fst (resolve (tokenize expr))) "(" = true)
        by (apply Hinc; lia).
      congruence.
    + symmetry in Hsteps. apply app_eq_nil in Hsteps as [Hout Hops].
      rewrite Hout, Hops in Hperm. simpl in Hperm.
      apply Permutation_nil in Hperm.
      apply List.Forall_forall. intros t Ht.
      destruct (isParen t) eqn:Hp; [reflexivity|].
      assert (H : In t (List.filter (fun t => negb (isParen t))
                          (tokenize expr)))
        by (apply List.filter_In; rewrite Hp; auto).
      rewrite Hperm in H. destruct H.
  - intros [Hdepth Hall].
    assert (Hnp : includes (fst (resolve (tokenize expr))) "(" = false).
    { apply not_true_is_false. intros H. apply Hinc in H. lia. }
    assert (Hnil : List.filter (fun t => negb (isParen t)) (tokenize expr)
                   = []).
    { apply filter_none. rewrite List.Forall_forall in Hall.
      intros t Ht. rewrite (Hall t Ht). reflexivity. }
    rewrite Hnil in Hperm. apply Permutation_sym, Permutation_nil in Hperm.
    apply app_eq_nil in Hperm as [Hops Hout].
    destruct (Hfinal Hnp) as [Hf _]. rewrite Hf in Hops.
    assert (Hsteps : applyPrecedence (tokenize expr) = Ret []).
    { apply applyPrecedence_Ret. rewrite Hout, Hops. auto. }
    rewrite Hsteps. reflexivity.
Qed.

Lemma parse_undefined_iff_witness : parse " ( ) " = Ret None.
Proof.
  apply parse_undefined_iff. split; [reflexivity|].
  vm_compute. repeat constructor.
Defined.

(** ** The algebra of the nodes *)

(** X9.  Intersection and union do not depend on the order of their
    operands, as far as membership goes: only the order of the result may
    differ. *)
Theorem intersect_and_union_commute
    (l r : ScopeExpr) (info : ScopeInfo) (fields rl rr : list string) :
  l info fields = Ret rl ->
  r info fields = Ret rr ->
  exists a b c d,
    scopeIntersect l r info fields = Ret a /\
    scopeIntersect r l info fields = Ret b /\
    (forall x, In x a <-> In x b) /\
    scopeJoin l r info fields = Ret c /\
    scopeJoin r l info fields = Ret d /\
    (forall x, In x c <-> In x d).
Proof.
  intros Hl Hr. unfold scopeIntersect, scopeJoin. rewrite Hl, Hr. simpl.
  do 4 eexists. repeat (split; [reflexivity|]). split.
  - intros x. rewrite !List.filter_In, !includes_In. tauto.
  - split; [reflexivity|]. split; [reflexivity|].
    intros x. rewrite !newSet_dedup, !dedup_In, !List.in_app_iff. tauto.
Qed.

Lemma intersect_and_union_commute_witness :
  exists a b c d,
    scopeIntersect (scopeLiteral "private") (scopeLiteral "sensitive")
      sampleInfo sampleFields = Ret a /\
    scopeIntersect (scopeLiteral "sensitive") (scopeLiteral "private")
      sampleInfo sampleFields = Ret b /\
    (forall x, In x a <-> In x b) /\
    scopeJoin (scopeLiteral "private") (scopeLiteral "sensitive")
      sampleInfo sampleFields = Ret c /\
    scopeJoin (scopeLiteral "sensitive") (scopeLiteral "private")
      sampleInfo sampleFields = Ret d /\
    (forall x, In x c <-> In x d).
Proof.
  apply (intersect_and_union_commute _ _ _ _ ["email"; "ssn"] ["ssn"]);
    vm_compute; reflexivity.
Defined.

(** X10.  De Morgan.  The negation of a union is the intersection of the
    negations, result for result; the negation of an intersection has the
    members of the union of the negations. *)
Theorem negation_de_morgan
    (a b : ScopeExpr) (info : ScopeInfo) (fields ra rb : list string) :
  a info fields = Ret ra ->
  b info fields = Ret rb ->
  scopeNegate (scopeJoin a b) info fields
  = scopeIntersect (scopeNegate a) (scopeNegate b) info fields /\
  exists n j,
    scopeNegate (scopeIntersect a b) info fields = Ret n /\
    scopeJoin (scopeNegate a) (scopeNegate b) info fields = Ret j /\
    (forall x, In x n <-> In x j).
Proof.
  intros Ha Hb. unfold scopeNegate, scopeJoin, scopeIntersect.
  rewrite Ha, Hb. simpl. split.
  - f_equal. rewrite filter_filter'. apply filter_ext_In'. intros x Hx.
    rewrite newSet_dedup.
    destruct (includes (dedup (ra ++ rb)) x) eqn:Hd.
    + apply includes_In in Hd. rewrite dedup_In in Hd.
      apply List.in_app_iff in Hd. simpl. symmetry.
      apply andb_false_iff.
      destruct Hd as [Hd | Hd].
      * left. apply negb_false_iff, includes_In, Hd.
      * right. apply includes_false. rewrite List.filter_In.
        intros [_ Hn]. apply negb_true_iff, includes_false in Hn. tauto.
    + apply includes_false in Hd. rewrite dedup_In, List.in_app_iff in Hd.
      simpl. symmetry. apply andb_true_iff. split.
      * apply negb_true_iff, includes_false. tauto.
      * apply includes_In, List.filter_In. split; [exact Hx|].
        apply negb_true_iff, includes_false. tauto.
  - do 2 eexists. split; [reflexivity|]. split; [reflexivity|].
    intros x. rewrite newSet_dedup, dedup_In, List.in_app_iff.
    rewrite !List.filter_In, !negb_true_iff, !includes_false.
    rewrite List.filter_In, includes_In.
    destruct (includes ra x) eqn:Hx.
    + apply includes_In in Hx. tauto.
    + apply includes_false in Hx. tauto.
Qed.

Lemma negation_de_morgan_witness :
  scopeNegate (scopeJoin (scopeLiteral "public") (scopeLiteral "sensitive"))
    sampleInfo sampleFields
  = scopeIntersect (scopeNegate (scopeLiteral "public"))
      (scopeNegate (scopeLiteral "sensitive")) sampleInfo sampleFields.
Proof.
  apply (negation_de_morgan _ _ _ _ ["name"] ["ssn"]); vm_compute; reflexivity.
Defined.

(** X11.  A double negation returns the fields that the operand selected, in
    the order of [fields]; for a compiled operand these are the members of
    its own result. *)
Theorem double_negation
    (f : ScopeExpr) (info : ScopeInfo) (fields r : list string) :
  f info fields = Ret r ->
  scopeNegate (scopeNegate f) info fields
  = Ret (List.filter (fun x => includes r x) fields) /\
  (Compiled f ->
   forall x, In x (List.filter (fun x => includes r x) fields) <-> In x r).
Proof.
  intros Hf. split.
  - unfold scopeNegate. rewrite Hf. simpl. f_equal.
    apply filter_ext_In'. intros x Hx.
    destruct (includes r x) eqn:Hr; simpl.
    + apply negb_true_iff, includes_false. rewrite List.filter_In, Hr.
      simpl. intros [_ [=]].
    + apply negb_false_iff, includes_In, List.filter_In. rewrite Hr. auto.
  - intros Hc x. rewrite List.filter_In, includes_In.
    pose proof (Compiled_narrows f info fields Hc r Hf x). tauto.
Qed.

Lemma double_negation_witness :
  scopeNegate (scopeNegate (scopeLiteral "private")) sampleInfo sampleFields
  = Ret (List.filter (fun x => includes ["email"; "ssn"] x) sampleFields).
Proof.
  apply (double_negation (scopeLiteral "private") sampleInfo sampleFields).
  vm_compute. reflexivity.
Defined.

Lemma scopeNegate_partitions_witness :
  exists r',
    scopeNegate (scopeLiteral "private") sampleInfo sampleFields = Ret r' /\
    (forall x, In x sampleFields <-> In x ["email"; "ssn"] \/ In x r') /\
    (forall x, ~ (In x ["email"; "ssn"] /\ In x r')).
Proof.
  apply scopeNegate_partitions; [apply Compiled_Literal|].
  vm_compute. reflexivity.
Defined.

(** X13.  The wildcard is neutral for the intersection: [f & *] evaluates as
    [f], result or exception; and the union with the wildcard has every
    field. *)
Theorem wildcard_neutral
    (f : ScopeExpr) (info : ScopeInfo) (fields : list string) :
  Compiled f ->
  scopeIntersect f scopeWildcard info fields = f info fields /\
  (forall r, f info fields = Ret r ->
     exists u,
       scopeJoin f scopeWildcard info fields = Ret u /\
       forall x, In x u <-> In x fields).
Proof.
  intros Hc. split.
  - unfold scopeIntersect, scopeWildcard. simpl.
    destruct (f info fields) as [r|e] eqn:Hf; simpl; [|reflexivity].
    f_equal. apply filter_all. intros x Hx. apply includes_In.
    eapply Compiled_narrows; eauto.
  - intros r Hf. unfold scopeJoin, scopeWildcard. rewrite Hf. simpl.
    eexists. split; [reflexivity|].
    intros x. rewrite newSet_dedup, dedup_In, List.in_app_iff.
    pose proof (Compiled_narrows f info fields Hc r Hf x). tauto.
Qed.

Lemma wildcard_neutral_witness :
  scopeIntersect (scopeLiteral "public") scopeWildcard sampleInfo ["id"; "age"]
  = scopeLiteral "public" sampleInfo ["id"; "age"].
Proof. apply wildcard_neutral. apply Compiled_Literal. Defined.

(** X15.  When every field is a key of the mapping, a literal returns the
    fields whose scope list has the scope, in the order of [fields]. *)
Theorem scopeLiteral_filters
    (scope : string) (info : ScopeInfo) (fields : list string) :
  Forall (fun f => is_Some (info !! f)) fields ->
  scopeLiteral scope info fields
  = Ret (List.filter
           (fun f => includes (default [] (info !! f)) scope) fields) /\
  (forall x,
     In x (List.filter
             (fun f => includes (default [] (info !! f)) scope) fields) <->
     In x fields /\ exists scopes, info !! x = Some scopes /\ In scope scopes).
Proof.
  intros Hall. split.
  - destruct (scopeLiteral_cases scope info fields) as [[_ H] | [Habs _]];
      [exact H|].
    exfalso. revert Habs. apply Forall_is_Some_no_absent. exact Hall.
  - intros x. rewrite List.filter_In, includes_In. split.
    + intros [Hx Hs]. split; [exact Hx|].
      rewrite List.Forall_forall in Hall.
      destruct (Hall x Hx) as [scopes Hscopes]. rewrite Hscopes in Hs.
      eauto.
    + intros [Hx (scopes & -> & Hs)]. auto.
Qed.

Lemma scopeLiteral_filters_witness :
  scopeLiteral "private" sampleInfo sampleFields
  = Ret (List.filter
           (fun f => includes (default [] (sampleInfo !! f)) "private")
           sampleFields).
Proof.
  apply scopeLiteral_filters.
  unfold sampleFields. repeat constructor; vm_compute; eauto.
Defined.

(** X16.  Over fields without duplicates a compiled expression returns a
    result without duplicates. *)
Theorem evaluation_keeps_fields_distinct
    (f : ScopeExpr) (info : ScopeInfo) (fields result : list string) :
  Compiled f ->
  List.NoDup fields ->
  f info fields = Ret result ->
  List.NoDup result.
Proof. intros Hc Hnd Hres. eapply Compiled_NoDup; eauto. Qed.

Lemma evaluation_keeps_fields_distinct_witness :
  List.NoDup ["email"; "ssn"; "name"].
Proof.
  apply (evaluation_keeps_fields_distinct
           (scopeJoin (scopeLiteral "private") (scopeLiteral "public"))
           sampleInfo sampleFields).
  - apply Compiled_Join; apply Compiled_Literal.
  - unfold sampleFields.
    repeat (constructor; [simpl; intuition discriminate|]). constructor.
  - vm_compute. reflexivity.
Defined.

(** ** What an evaluation depends on *)

Lemma arrayFilter_ext_In cb1 cb2 a :
  (forall x, In x a -> cb1 x = cb2 x) -> arrayFilter cb1 a = arrayFilter cb2 a.
Proof.
  induction a as [|x a IH]; intros H; simpl; [reflexivity|].
  rewrite (H x) by (left; reflexivity).
  rewrite IH by (intros y Hy; apply H; right; exact Hy). reflexivity.
Qed.

Lemma includes_same_members a b s :
  (forall x, In x a <-> In x b) -> includes a s = includes b s.
Proof.
  intros H. destruct (includes b s) eqn:Hb.
  - apply includes_In, H, includes_In, Hb.
  - apply includes_false. rewrite H. apply includes_false, Hb.
Qed.

Lemma Compiled_sameScopes
    (f : ScopeExpr) (info1 info2 : ScopeInfo) (fields : list string) :
  Compiled f ->
  (forall x, In x fields -> sameScopes (info1 !! x) (info2 !! x)) ->
  f info1 fields = f info2 fields.
Proof.
  intros Hc Hsame.
  induction Hc as [|scope|subexpr _ IH|l r _ IHl _ IHr|l r _ IHl _ IHr].
  - reflexivity.
  - unfold scopeLiteral. apply arrayFilter_ext_In. intros x Hx.
    specialize (Hsame x Hx). unfold sameScopes in Hsame.
    destruct (info1 !! x) as [a|], (info2 !! x) as [b|];
      try contradiction; [|reflexivity].
    f_equal. apply includes_same_members. exact Hsame.
  - unfold scopeNegate. rewrite IH. reflexivity.
  - unfold scopeJoin. rewrite IHl, IHr. reflexivity.
  - unfold scopeIntersect. rewrite IHl, IHr. reflexivity.
Qed.

(** X14.  An evaluation reads the mapping only at the fields it is given,
    and reads a scope list only through membership tests: entries under other
    keys, the order of the scopes and repeated scopes do not change the
    result, nor whether the evaluation throws. *)
Theorem evaluation_reads_fields_only
    (f : ScopeExpr) (info1 info2 : ScopeInfo) (fields : list string) :
  Compiled f ->
  (forall x, In x fields -> sameScopes (info1 !! x) (info2 !! x)) ->
  f info1 fields = f info2 fields.
Proof. apply Compiled_sameScopes. Qed.

Lemma evaluation_reads_fields_only_witness :
  scopeNegate (scopeLiteral "private")
    (<["id" := []]> (<["ssn" := ["private"; "sensitive"]]> ∅)) ["id"; "ssn"]
  = scopeNegate (scopeLiteral "private")
      (<["id" := []]> (<["ssn" := ["sensitive"; "private"; "private"]]>
         (<["other" := ["private"]]> ∅))) ["id"; "ssn"].
Proof.
  apply evaluation_reads_fields_only.
  - apply Compiled_Negate, Compiled_Literal.
  - intros x [<- | [<- | []]]; vm_compute; [tauto|].
    intros s. tauto.
Defined.

(** Every compiled expression tests the fields one by one: it stands for a
    condition on the scope list of a field. *)
Lemma Compiled_condition f :
  Compiled f ->
  exists P : list string -> bool,
    forall (info : ScopeInfo) fields,
      Forall (fun x => is_Some (info !! x)) fields ->
      exists r,
        f info fields = Ret r /\
        forall x, In x r <-> In x fields /\ P (default [] (info !! x)) = true.
Proof.
  induction 1 as [|scope|subexpr _ [P IH]|l r _ [Pl IHl] _ [Pr IHr]
                  |l r _ [Pl IHl] _ [Pr IHr]].
  - exists (fun _ => true). intros info fields _. exists fields.
    split; [reflexivity | tauto].
  - exists (fun scopes => includes scopes scope). intros info fields Hall.
    destruct (scopeLiteral_cases scope info fields) as [[_ ->] | [Habs _]].
    + eexists. split; [reflexivity|]. intros x. rewrite List.filter_In.
      tauto.
    + exfalso. revert Habs. apply Forall_is_Some_no_absent. exact Hall.
  - exists (fun scopes => negb (P scopes)). intros info fields Hall.
    destruct (IH info fields Hall) as (r & Hr & Hmem).
    unfold scopeNegate. rewrite Hr. simpl. eexists. split; [reflexivity|].
    intros x. rewrite List.filter_In, !negb_true_iff, includes_false, Hmem.
    destruct (P (default [] (info !! x))); intuition congruence.
  - exists (fun scopes => Pl scopes || Pr scopes). intros info fields Hall.
    destruct (IHl info fields Hall) as (rl & Hrl & Hl).
    destruct (IHr info fields Hall) as (rr & Hrr & Hr).
    unfold scopeJoin. rewrite Hrl, Hrr. simpl. eexists.
    split; [reflexivity|]. intros x.
    rewrite newSet_dedup, dedup_In, List.in_app_iff, Hl, Hr, orb_true_iff.
    tauto.
  - exists (fun scopes => Pl scopes && Pr scopes). intros info fields Hall.
    destruct (IHl info fields Hall) as (rl & Hrl & Hl).
    destruct (IHr info fields Hall) as (rr & Hrr & Hr).
    unfold scopeIntersect. rewrite Hrl, Hrr. simpl. eexists.
    split; [reflexivity|]. intros x.
    rewrite List.filter_In, includes_In, Hl, Hr, andb_true_iff. tauto.
Qed.

(** X17.  A compiled expression decides field by field: there is a condition
    on scope lists such that, whatever the mapping and the fields (all of
    them keys of the mapping), a field is in the result exactly when it is
    among the fields and its scope list meets the condition. *)
Theorem evaluation_is_fieldwise (f : ScopeExpr) :
  Compiled f ->
  exists P : list string -> bool,
    forall (info : ScopeInfo) fields,
      Forall (fun x => is_Some (info !! x)) fields ->
      exists r,
        f info fields = Ret r /\
        forall x, In x r <-> In x fields /\ P (default [] (info !! x)) = true.
Proof. apply Compiled_condition. Qed.

Lemma evaluation_is_fieldwise_witness :
  exists P : list string -> bool,
    forall (info : ScopeInfo) fields,
      Forall (fun x => is_Some (info !! x)) fields ->
      exists r,
        scopeNegate (scopeLiteral "sensitive") info fields = Ret r /\
        forall x, In x r <-> In x fields /\ P (default [] (info !! x)) = true.
Proof.
  apply evaluation_is_fieldwise. apply Compiled_Negate, Compiled_Literal.
Defined.

Lemma Compiled_idempotent
    (f : ScopeExpr) (info : ScopeInfo) (fields r : list string) :
  Compiled f ->
  Forall (fun x => is_Some (info !! x)) fields ->
  f info fields = Ret r ->
  exists r', f info r = Ret r' /\ forall x, In x r' <-> In x r.
Proof.
  intros Hc Hall Hr. destruct (Compiled_condition f Hc) as [P HP].
  destruct (HP info fields Hall) as (r0 & Hr0 & Hmem).
  assert (r0 = r) by congruence. subst r0.
  assert (Hall' : Forall (fun x => is_Some (info !! x)) r).
  { apply List.Forall_forall. intros x Hx.
    rewrite List.Forall_forall in Hall. apply Hall, Hmem, Hx. }
  destruct (HP info r Hall') as (r' & Hr' & Hmem').
  exists r'. split; [exact Hr'|].
  intros x. rewrite Hmem', Hmem. tauto.
Qed.

(** X18.  Narrowing is idempotent: evaluating a compiled expression again,
    over the fields it has just selected, selects all of them. *)
Theorem evaluation_idempotent
    (f : ScopeExpr) (info : ScopeInfo) (fields r : list string) :
  Compiled f ->
  Forall (fun x => is_Some (info !! x)) fields ->
  f info fields = Ret r ->
  exists r', f info r = Ret r' /\ forall x, In x r' <-> In x r.
Proof. apply Compiled_idempotent. Qed.

Lemma evaluation_idempotent_witness :
  exists r',
    scopeNegate (scopeLiteral "sensitive") sampleInfo ["id"; "name"; "email"]
    = Ret r' /\
    forall x, In x r' <-> In x ["id"; "name"; "email"].
Proof.
  apply (evaluation_idempotent _ sampleInfo sampleFields).
  - apply Compiled_Negate, Compiled_Literal.
  - unfold sampleFields. repeat constructor; vm_compute; eauto.
  - vm_compute. reflexivity.
Defined.

(** ** Facts about maps *)

Section Maps.
Context {V : Type}.
Implicit Types (m : list (string * V)) (k : string) (v : V).

Lemma mapGet_mapSet_eq m k v : mapGet k (mapSet k v m) = Some v.
Proof.
  induction m as [|[k' v'] m IH]; simpl.
  - rewrite String.eqb_refl. reflexivity.
  - destruct (String.eqb k' k) eqn:Hk; simpl.
    + rewrite String.eqb_refl. reflexivity.
    + rewrite Hk. exact IH.
Qed.

Lemma mapGet_mapSet_ne m k k' v :
  k <> k' -> mapGet k' (mapSet k v m) = mapGet k' m.
Proof.
  intros Hne. induction m as [|[k0 v0] m IH]; simpl.
  - apply String.eqb_neq in Hne. rewrite Hne. reflexivity.
  - destruct (String.eqb_spec k0 k) as [->|Hk]; simpl.
    + apply String.eqb_neq in Hne. rewrite Hne. reflexivity.
    + rewrite IH. reflexivity.
Qed.

Lemma mapHas_includes m k : mapHas k m = includes (List.map fst m) k.
Proof.
  unfold mapHas, includes. induction m as [|[k' v'] m IH]; simpl;
    [reflexivity|].
  rewrite IH, (String.eqb_sym k k'). reflexivity.
Qed.

Lemma mapHas_In m k : mapHas k m = true <-> In k (List.map fst m).
Proof. rewrite mapHas_includes. apply includes_In. Qed.

Lemma mapGet_Some_In m k v : mapGet k m = Some v -> In (k, v) m.
Proof.
  induction m as [|[k' v'] m IH]; simpl; [discriminate|].
  destruct (String.eqb_spec k' k) as [->|Hk].
  - intros [= ->]. left. reflexivity.
  - intros H. right. apply IH, H.
Qed.

Lemma mapGet_None m k : mapGet k m = None <-> mapHas k m = false.
Proof.
  unfold mapHas. induction m as [|[k' v'] m IH]; simpl; [tauto|].
  destruct (String.eqb k' k); simpl; [split; discriminate | exact IH].
Qed.

Lemma mapGet_is_Some m k : is_Some (mapGet k m) <-> mapHas k m = true.
Proof.
  pose proof (mapGet_None m k) as [H1 H2].
  destruct (mapGet k m) as [v|].
  - split; [|eauto]. intros _.
    destruct (mapHas k m); [reflexivity|]. discriminate H2. reflexivity.
  - rewrite H1 by reflexivity. split; [intros [? [=]] | discriminate].
Qed.

(** The keys after [set]: a new key goes to the end, as in a [Set]. *)
Lemma keys_mapSet m k v :
  List.map fst (mapSet k v m) = setAdd (List.map fst m) k.
Proof.
  unfold setAdd, push, includes. induction m as [|[k' v'] m IH]; simpl;
    [reflexivity|].
  rewrite (String.eqb_sym k k').
  destruct (String.eqb k' k) eqn:Hk; simpl.
  - apply String.eqb_eq in Hk. subst k'. reflexivity.
  - rewrite IH. destruct (existsb (String.eqb k) (List.map fst m));
      reflexivity.
Qed.

Lemma values_mapSet (P : V -> Prop) m k v :
  Forall (fun entry => P (snd entry)) m -> P v ->
  Forall (fun entry => P (snd entry)) (mapSet k v m).
Proof.
  intros Hall Hv. induction Hall as [|[k' v'] m Hx Hm IH]; simpl.
  - constructor; [exact Hv | constructor].
  - destruct (String.eqb k' k); constructor; assumption.
Qed.
End Maps.

Lemma setAdd_NoDup s x : List.NoDup s -> List.NoDup (setAdd s x).
Proof.
  intros Hnd. unfold setAdd, push. destruct (includes s x) eqn:Hx;
    [exact Hnd|].
  apply includes_false in Hx.
  induction Hnd as [|y s Hy _ IH]; simpl.
  - constructor; [intros [] | constructor].
  - constructor.
    + rewrite List.in_app_iff. simpl. intros [H | [H | []]]; [tauto|].
      subst y. apply Hx. left. reflexivity.
    + apply IH. intros H. apply Hx. right. exact H.
Qed.

Lemma setAdd_In s x y : In y (setAdd s x) <-> In y s \/ y = x.
Proof.
  unfold setAdd, push. destruct (includes s x) eqn:Hx.
  - apply includes_In in Hx. split; [tauto|].
    intros [H | ->]; assumption.
  - rewrite List.in_app_iff. simpl. intuition congruence.
Qed.

(** ** ValidationResult *)

Lemma errorsOf_mapSet_eq (m : ValidationResult.t) field errors :
  ValidationResult.errorsOf (mapSet field errors m) field = errors.
Proof.
  unfold ValidationResult.errorsOf. rewrite mapGet_mapSet_eq. reflexivity.
Qed.

Lemma errorsOf_mapSet_ne (m : ValidationResult.t) field errors other :
  field <> other ->
  ValidationResult.errorsOf (mapSet field errors m) other
  = ValidationResult.errorsOf m other.
Proof.
  intros Hne. unfold ValidationResult.errorsOf.
  rewrite mapGet_mapSet_ne by exact Hne. reflexivity.
Qed.

Lemma mergeEntry_errorsOf (m : ValidationResult.t) field errors other :
  ValidationResult.errorsOf (ValidationResult.mergeEntry m (field, errors))
    other
  = ValidationResult.errorsOf m other
    ++ (if String.eqb field other then errors else []).
Proof.
  unfold ValidationResult.mergeEntry.
  destruct (String.eqb_spec field other) as [<-|Hne].
  - unfold ValidationResult.errorsOf at 2.
    destruct (mapGet field m); rewrite errorsOf_mapSet_eq; reflexivity.
  - rewrite app_nil_r.
    destruct (mapGet field m); apply errorsOf_mapSet_ne; exact Hne.
Qed.

Lemma mergeEntry_keys (m : ValidationResult.t) entry :
  List.map fst (ValidationResult.mergeEntry m entry)
  = setAdd (List.map fst m) (fst entry).
Proof.
  destruct entry as [field errors]. unfold ValidationResult.mergeEntry.
  destruct (mapGet field m); apply keys_mapSet.
Qed.

Lemma merge_errorsOf (result : ValidationResult.t) :
  forall (m : ValidationResult.t) other,
    List.NoDup (List.map fst result) ->
    ValidationResult.errorsOf (ValidationResult.merge m result) other
    = ValidationResult.errorsOf m other
      ++ ValidationResult.errorsOf result other.
Proof.
  unfold ValidationResult.merge.
  induction result as [|[field errors] result IH]; intros m other Hnd;
    cbn [fold_left].
  - unfold ValidationResult.errorsOf at 3. simpl. rewrite app_nil_r.
    reflexivity.
  - inversion Hnd as [|? ? Hfield Hrest]; subst.
    rewrite IH by exact Hrest. rewrite mergeEntry_errorsOf, <- app_assoc.
    f_equal. unfold ValidationResult.errorsOf. simpl.
    destruct (String.eqb_spec field other) as [<-|Hne]; [|reflexivity].
    assert (Hnone : mapGet field result = None).
    { apply mapGet_None. apply not_true_is_false. intros H.
      apply mapHas_In in H. exact (Hfield H). }
    rewrite Hnone, app_nil_r. reflexivity.
Qed.

Lemma merge_keys (result : ValidationResult.t) :
  forall m : ValidationResult.t,
    List.map fst (ValidationResult.merge m result)
    = fold_left setAdd (List.map fst result) (List.map fst m).
Proof.
  unfold ValidationResult.merge.
  induction result as [|entry result IH]; intros m; cbn [fold_left List.map];
    [reflexivity|].
  rewrite IH, mergeEntry_keys. reflexivity.
Qed.

Lemma fold_setAdd_NoDup a :
  forall acc, List.NoDup acc -> List.NoDup (fold_left setAdd a acc).
Proof.
  induction a as [|x a IH]; intros acc Hnd; simpl; [exact Hnd|].
  apply IH, setAdd_NoDup, Hnd.
Qed.

(** The two facts that every result keeps: no field has two entries, and no
    entry has an empty array. *)
Lemma Built_wellformed (m : ValidationResult.t) :
  ValidationResult.Built m ->
  List.NoDup (List.map fst m) /\
  Forall (fun entry => snd entry <> []) m.
Proof.
  induction 1 as [|m field error _ [Hnd Hne]
                  |m result _ [Hnd Hne] _ [Hnd' Hne']].
  - split; constructor.
  - unfold ValidationResult.addError. split.
    + destruct (mapGet field m); rewrite keys_mapSet;
        apply setAdd_NoDup, Hnd.
    + destruct (mapGet field m) as [bag|];
        apply (values_mapSet (fun v => v <> [])); auto.
      unfold push. destruct bag; discriminate.
  - split.
    + rewrite merge_keys. apply fold_setAdd_NoDup, Hnd.
    + clear Hnd Hnd'. unfold ValidationResult.merge. revert m Hne.
      induction Hne' as [|[field errors] result Hx _ IH]; intros m Hne;
        simpl; [exact Hne|].
      apply IH. unfold ValidationResult.mergeEntry. simpl in Hx.
      destruct (mapGet field m) as [bag|];
        apply (values_mapSet (fun v => v <> [])); auto.
      destruct bag; [exact Hx | discriminate].
Qed.

(** X19.  [addError] appends the message to the messages of its field and
    leaves the other fields alone; afterwards the result has errors, and has
    errors for that field. *)
Theorem addError_appends (m : ValidationResult.t) (field error : string) :
  ValidationResult.errorsOf (ValidationResult.addError m field error) field
  = ValidationResult.errorsOf m field ++ [error] /\
  (forall other, field <> other ->
     ValidationResult.errorsOf (ValidationResult.addError m field error) other
     = ValidationResult.errorsOf m other) /\
  ValidationResult.hasErrors (ValidationResult.addError m field error)
    (Some field) = true /\
  ValidationResult.hasErrors (ValidationResult.addError m field error) None
  = true.
Proof.
  unfold ValidationResult.addError. split; [|split; [|split]].
  - unfold ValidationResult.errorsOf at 2.
    destruct (mapGet field m); rewrite errorsOf_mapSet_eq; reflexivity.
  - intros other Hne.
    destruct (mapGet field m); apply errorsOf_mapSet_ne; exact Hne.
  - simpl. apply mapGet_is_Some.
    destruct (mapGet field m); rewrite mapGet_mapSet_eq; eauto.
  - simpl. destruct (mapGet field m); destruct m as [|[k v] m]; simpl;
      try reflexivity; destruct (String.eqb k field); reflexivity.
Qed.

Lemma addError_appends_witness :
  ValidationResult.errorsOf
    (ValidationResult.addError [("name", ["too short"])] "age" "negative")
    "name"
  = ValidationResult.errorsOf [("name", ["too short"])] "name".
Proof.
  apply (addError_appends [("name", ["too short"])] "age" "negative").
  discriminate.
Defined.

(** X20.  [merge] appends, field by field, the messages of the other result
    to those of this one; the fields of this result keep their places and
    the new fields follow in the order of the other result. *)
Theorem merge_concatenates (m result : ValidationResult.t) :
  List.NoDup (List.map fst result) ->
  (forall field,
     ValidationResult.errorsOf (ValidationResult.merge m result) field
     = ValidationResult.errorsOf m field
       ++ ValidationResult.errorsOf result field) /\
  List.map fst (ValidationResult.merge m result)
  = List.map fst m
    ++ List.filter (fun field => negb (mapHas field m)) (List.map fst result).
Proof.
  intros Hnd. split.
  - intros field. apply merge_errorsOf. exact Hnd.
  - rewrite merge_keys, fold_setAdd_dedup, (dedup_id _ Hnd). f_equal.
    apply filter_ext_In'. intros k _. rewrite mapHas_includes. reflexivity.
Qed.

Lemma merge_concatenates_witness :
  ValidationResult.errorsOf
    (ValidationResult.merge [("name", ["too short"])]
       [("age", ["negative"]); ("name", ["not a name"])]) "name"
  = ValidationResult.errorsOf [("name", ["too short"])] "name"
    ++ ValidationResult.errorsOf
         [("age", ["negative"]); ("name", ["not a name"])] "name".
Proof.
  apply merge_concatenates. simpl.
  repeat (constructor; [simpl; intuition discriminate|]). constructor.
Defined.

(** X21.  Every result that the class can produce has one entry per field
    and no entry without messages, so [hasErrors] agrees with [errors]: the
    result has errors exactly when [errors()] yields something, and has
    errors for a field exactly when [errors(field)] yields something. *)
Theorem hasErrors_agrees_with_errors (m : ValidationResult.t) :
  ValidationResult.Built m ->
  List.NoDup (List.map fst m) /\
  (ValidationResult.hasErrors m None = true <->
   ValidationResult.errors m <> []) /\
  (forall field,
     ValidationResult.hasErrors m (Some field) = true <->
     ValidationResult.errorsOf m field <> []).
Proof.
  intros Hb. destruct (Built_wellformed m Hb) as [Hnd Hne].
  split; [exact Hnd|]. split.
  - destruct Hne as [|[field [|e bag]] m Hx _]; simpl.
    + split; [discriminate | congruence].
    + simpl in Hx. congruence.
    + split; [discriminate | reflexivity].
  - intros field. simpl. rewrite <- mapGet_is_Some.
    unfold ValidationResult.errorsOf.
    destruct (mapGet field m) as [bag|] eqn:Hget.
    + split; [|eauto]. intros _ ->.
      apply mapGet_Some_In in Hget. rewrite List.Forall_forall in Hne.
      apply (Hne _ Hget). reflexivity.
    + split; [intros [? [=]] | congruence].
Qed.

Lemma hasErrors_agrees_with_errors_witness :
  ValidationResult.hasErrors
    (ValidationResult.addError (ValidationResult.create []) "name" "empty")
    None = true <->
  ValidationResult.errors
    (ValidationResult.addError (ValidationResult.create []) "name" "empty")
  <> [].
Proof.
  apply hasErrors_agrees_with_errors.
  apply ValidationResult.Built_addError, ValidationResult.Built_new.
Defined.

(** X22.  A result made from a sequence of results has, for every field, the
    messages of the results one after the other; and it is again a result
    that the class can produce. *)
Theorem create_concatenates (results : list ValidationResult.t) :
  Forall ValidationResult.Built results ->
  ValidationResult.Built (ValidationResult.create results) /\
  forall field,
    ValidationResult.errorsOf (ValidationResult.create results) field
    = concat
        (List.map (fun r => ValidationResult.errorsOf r field) results).
Proof.
  intros Hall. unfold ValidationResult.create.
  assert (H : forall acc,
             ValidationResult.Built acc ->
             ValidationResult.Built
               (fold_left ValidationResult.merge results acc) /\
             forall field,
               ValidationResult.errorsOf
                 (fold_left ValidationResult.merge results acc) field
               = ValidationResult.errorsOf acc field
                 ++ concat
                      (List.map (fun r => ValidationResult.errorsOf r field)
                         results)).
  { induction Hall as [|r results Hr _ IH]; intros acc Hacc; simpl.
    - split; [exact Hacc|]. intros field. rewrite app_nil_r. reflexivity.
    - destruct (IH (ValidationResult.merge acc r)) as [Hb Herr].
      + apply ValidationResult.Built_merge; assumption.
      + split; [exact Hb|]. intros field.
        rewrite Herr, merge_errorsOf, <- app_assoc; [reflexivity|].
        apply Built_wellformed, Hr. }
  destruct (H [] ValidationResult.Built_new) as [Hb Herr].
  split; [exact Hb|]. intros field. rewrite Herr. reflexivity.
Qed.

Lemma create_concatenates_witness :
  ValidationResult.errorsOf
    (ValidationResult.create
       [ValidationResult.addError (ValidationResult.create []) "a" "x";
        ValidationResult.addError (ValidationResult.create []) "a" "y"]) "a"
  = concat
      (List.map (fun r => ValidationResult.errorsOf r "a")
         [ValidationResult.addError (ValidationResult.create []) "a" "x";
          ValidationResult.addError (ValidationResult.create []) "a" "y"]).
Proof.
  apply create_concatenates.
  repeat constructor;
    apply ValidationResult.Built_addError, ValidationResult.Built_new.
Defined.

(** ** Declaring fields and selecting a view *)

Section ModelFacts.
Context {R : Type}.
Implicit Types (this modelView : Model.state R) (name : string).

Lemma addField_fieldNames this name field :
  fieldNames (Model._fields (Model.addField this name field))
  = setAdd (fieldNames (Model._fields this)) name.
Proof.
  unfold Model.addField, fieldNames, setAdd.
  rewrite <- mapHas_includes.
  destruct (mapHas name (Model._fields this)) eqn:Hhas; simpl.
  - reflexivity.
  - rewrite keys_mapSet. unfold setAdd. rewrite <- mapHas_includes, Hhas.
    reflexivity.
Qed.

Lemma addField_prototype this name field :
  Model._prototype this = fieldNames (Model._fields this) ->
  Model._prototype (Model.addField this name field)
  = setAdd (fieldNames (Model._fields this)) name.
Proof.
  intros Hp. unfold Model.addField, setAdd, fieldNames in *.
  rewrite <- mapHas_includes.
  destruct (mapHas name (Model._fields this)); simpl; [exact Hp|].
  rewrite Hp. reflexivity.
Qed.

Lemma addField_attributes this name field :
  Model._attributes (Model.addField this name field) = Model._attributes this.
Proof.
  unfold Model.addField. destruct (mapHas name (Model._fields this));
    reflexivity.
Qed.

Lemma addField_relations this name field :
  Model._relations (Model.addField this name field) = Model._relations this.
Proof.
  unfold Model.addField. destruct (mapHas name (Model._fields this));
    reflexivity.
Qed.

(** What every declared model keeps. *)
Lemma Declared_invariant this :
  Model.Declared this ->
  List.NoDup (fieldNames (Model._fields this)) /\
  Model._prototype this = fieldNames (Model._fields this) /\
  List.NoDup (Model._attributes this) /\
  List.NoDup (List.map fst (Model._relations this)) /\
  (forall n, In n (Model._attributes this) ->
             In n (fieldNames (Model._fields this))) /\
  (forall n, In n (List.map fst (Model._relations this)) ->
             In n (fieldNames (Model._fields this))).
Proof.
  induction 1 as [|this name field _ IH|this name descriptor _ IH
                  |this name relation _ IH].
  - simpl. repeat split; try constructor; intros n [].
  - destruct IH as (Hf & Hp & Ha & Hr & Haf & Hrf).
    rewrite addField_attributes, addField_relations, addField_fieldNames.
    split; [apply setAdd_NoDup, Hf|].
    split; [apply addField_prototype, Hp|].
    split; [exact Ha|]. split; [exact Hr|].
    split; intros n Hn; apply setAdd_In; left; auto.
  - destruct IH as (Hf & Hp & Ha & Hr & Haf & Hrf).
    unfold Model.addAttribute. simpl.
    rewrite addField_attributes, addField_relations, addField_fieldNames.
    split; [apply setAdd_NoDup, Hf|].
    split; [apply addField_prototype, Hp|].
    split; [apply setAdd_NoDup, Ha|]. split; [exact Hr|].
    split; intros n Hn; apply setAdd_In.
    + apply setAdd_In in Hn as [Hn | ->]; auto.
    + left. auto.
  - destruct IH as (Hf & Hp & Ha & Hr & Haf & Hrf).
    unfold Model.addRelation.
    destruct (mapHas name (Model._relations this)) eqn:Hhas.
    + repeat split; assumption.
    + set (this' := {| Model._attributes := Model._attributes this;
                       Model._fields := Model._fields this;
                       Model._relations :=
                         mapSet name relation (Model._relations this);
                       Model._prototype := Model._prototype this |}).
      rewrite addField_attributes, addField_relations, addField_fieldNames.
      split; [exact (setAdd_NoDup _ name Hf)|].
      split; [exact (addField_prototype this' name _ Hp)|].
      split; [exact Ha|].
      split; [simpl; rewrite keys_mapSet; apply setAdd_NoDup, Hr|].
      split; intros n Hn; apply setAdd_In.
      * left. apply Haf, Hn.
      * simpl in Hn. rewrite keys_mapSet in Hn.
        apply setAdd_In in Hn as [Hn | ->]; [left; apply Hrf, Hn | auto].
Qed.

Lemma selectStep_Declared this modelView name :
  Model.Declared modelView ->
  Model.Declared (Model.selectStep this modelView name).
Proof.
  intros Hd. unfold Model.selectStep.
  destruct (mapGet name (Model._fields this)); [|exact Hd].
  destruct (mapGet name (Model._relations this)).
  - apply Model.Declared_addRelation, Hd.
  - destruct (includes (Model._attributes this) name).
    + apply Model.Declared_addAttribute, Hd.
    + apply Model.Declared_addField, Hd.
Qed.

Lemma selectStep_fieldNames this modelView name :
  Model.Declared modelView ->
  fieldNames (Model._fields (Model.selectStep this modelView name))
  = if mapHas name (Model._fields this)
    then setAdd (fieldNames (Model._fields modelView)) name
    else fieldNames (Model._fields modelView).
Proof.
  intros Hd. unfold Model.selectStep.
  pose proof (mapGet_is_Some (Model._fields this) name) as Hsome.
  destruct (mapGet name (Model._fields this)) as [fd|].
  - assert (Hhas : mapHas name (Model._fields this) = true)
      by (apply Hsome; eauto).
    rewrite Hhas.
    destruct (mapGet name (Model._relations this)).
    + unfold Model.addRelation.
      destruct (mapHas name (Model._relations modelView)) eqn:Hrel.
      * destruct (Declared_invariant modelView Hd) as (_ & _ & _ & _ & _ & Hrf).
        apply mapHas_In, Hrf in Hrel. unfold setAdd.
        apply includes_In in Hrel. rewrite Hrel. reflexivity.
      * rewrite addField_fieldNames. reflexivity.
    + destruct (includes (Model._attributes this) name).
      * unfold Model.addAttribute. simpl. apply addField_fieldNames.
      * apply addField_fieldNames.
  - destruct (mapHas name (Model._fields this)); [|reflexivity].
    destruct Hsome as [_ Hsome]. destruct (Hsome eq_refl) as [? [=]].
Qed.

Lemma fold_selectStep this names :
  forall modelView,
    Model.Declared modelView ->
    Model.Declared (fold_left (Model.selectStep this) names modelView) /\
    fieldNames
      (Model._fields (fold_left (Model.selectStep this) names modelView))
    = fold_left setAdd
        (List.filter (fun n => mapHas n (Model._fields this)) names)
        (fieldNames (Model._fields modelView)).
Proof.
  induction names as [|name names IH]; intros modelView Hd; simpl.
  - auto.
  - destruct (IH (Model.selectStep this modelView name)
                (selectStep_Declared this modelView name Hd)) as [Hd' Hf].
    split; [exact Hd'|]. rewrite Hf, selectStep_fieldNames by exact Hd.
    destruct (mapHas name (Model._fields this)); reflexivity.
Qed.
End ModelFacts.

(** X23.  In every model that declarations can produce, no field is declared
    twice, a property is defined on the prototype for the names of the fields
    and for no others, once for each, and every attribute and every relation
    is a field. *)
Theorem declared_model_consistent {R : Type} (this : Model.state R) :
  Model.Declared this ->
  List.NoDup (fieldNames (Model._fields this)) /\
  (forall n, In n (Model._prototype this) <->
             In n (fieldNames (Model._fields this))) /\
  List.NoDup (Model._prototype this) /\
  List.NoDup (Model._attributes this) /\
  List.NoDup (List.map fst (Model._relations this)) /\
  (forall n, In n (Model._attributes this) ->
             In n (fieldNames (Model._fields this))) /\
  (forall n, In n (List.map fst (Model._relations this)) ->
             In n (fieldNames (Model._fields this))).
Proof.
  intros Hd.
  destruct (Declared_invariant this Hd) as (Hf & Hp & Ha & Hr & Haf & Hrf).
  split; [exact Hf|].
  split; [intros n; rewrite Hp; tauto|].
  split; [rewrite Hp; exact Hf|].
  repeat split; assumption.
Qed.

Lemma declared_model_consistent_witness :
    In "2"
      (Model._prototype
         (Model.addRelation
            (Model.addAttribute
               (Model.addField (Model.create (R := nat)) "2"
                  {| scopes := None |})
               "name" {| scopes := Some ["public"] |})
            "owner" 0)) <->
    In "2"
      (fieldNames
         (Model._fields
            (Model.addRelation
               (Model.addAttribute
                  (Model.addField (Model.create (R := nat)) "2"
                     {| scopes := None |})
                  "name" {| scopes := Some ["public"] |})
               "owner" 0))).
Proof.
  apply declared_model_consistent.
  apply Model.Declared_addRelation, Model.Declared_addAttribute,
    Model.Declared_addField, Model.Declared_create.
Defined.

Lemma select_fields_aux {R : Type} (this : Model.state R)
    (names : list string) :
  Model.Declared (Model.select this names) /\
  fieldNames (Model._fields (Model.select this names))
  = dedup (List.filter (fun n => mapHas n (Model._fields this)) names).
Proof.
  unfold Model.select.
  destruct (fold_selectStep this names Model.create Model.Declared_create)
    as [Hd Hf].
  split; [exact Hd|]. rewrite Hf. simpl. apply newSet_dedup.
Qed.

(** X24.  [select] gives a model whose fields are the names asked for that
    are fields of this model, each once, in the order in which they are
    first asked for; names that are not fields are skipped. *)
Theorem select_fields {R : Type} (this : Model.state R)
    (names : list string) :
  Model.Declared (Model.select this names) /\
  fieldNames (Model._fields (Model.select this names))
  = dedup (List.filter (fun n => mapHas n (Model._fields this)) names).
Proof. apply select_fields_aux. Qed.

Lemma view_inversion {R : Type} (this view : Model.state R) (expr : string) :
  Model.Declared this ->
  Model.view this expr = Ret view ->
  exists f selected,
    parse expr = Ret (Some f) /\
    Compiled f /\
    f (scopeInfo (Model._fields this)) (fieldNames (Model._fields this))
    = Ret selected /\
    view = Model.select this selected /\
    fieldNames (Model._fields view) = selected /\
    List.NoDup selected /\
    (forall x, In x selected -> In x (fieldNames (Model._fields this))).
Proof.
  intros Hd. unfold Model.view, viewSelected.
  destruct (parse expr) as [[f|]|] eqn:Hparse; simpl; try discriminate.
  destruct (f (scopeInfo (Model._fields this))
              (fieldNames (Model._fields this))) as [selected|] eqn:Hsel;
    simpl; [|discriminate].
  intros [= <-]. exists f, selected.
  pose proof (parse_Compiled expr f Hparse) as Hc.
  destruct (Declared_invariant this Hd) as (Hnd & _).
  pose proof (Compiled_NoDup f _ _ Hc Hnd selected Hsel) as Hnds.
  pose proof (Compiled_narrows f _ _ Hc selected Hsel) as Hsub.
  repeat (split; [auto; fail|]). split; [|auto].
  destruct (select_fields_aux this selected) as [_ Hf]. rewrite Hf.
  rewrite filter_all.
  - apply dedup_id, Hnds.
  - intros x Hx. apply mapHas_In, Hsub, Hx.
Qed.

(** X25.  The view of a declared model has exactly the fields that the
    expression selects, in the order of the selection. *)
Theorem view_fields {R : Type} (this view : Model.state R) (expr : string) :
  Model.Declared this ->
  Model.view this expr = Ret view ->
  viewSelected (Model._fields this) expr
  = Ret (fieldNames (Model._fields view)) /\
  Model.Declared view.
Proof.
  intros Hd Hview.
  destruct (view_inversion this view expr Hd Hview)
    as (f & selected & Hparse & _ & Hsel & -> & Hf & _).
  split; [|apply select_fields_aux].
  unfold viewSelected. rewrite Hparse. simpl. rewrite Hsel, Hf. reflexivity.
Qed.

Lemma view_fields_witness :
  viewSelected
    (Model._fields
       (Model.addField
          (Model.addField (Model.create (R := nat)) "name"
             {| scopes := Some ["public"] |})
          "ssn" {| scopes := Some ["private"] |}))
    "public"
  = Ret (fieldNames
           (Model._fields
              (Model.addField (Model.create (R := nat)) "name"
                 {| scopes := Some ["public"] |}))) /\
  Model.Declared
    (Model.addField (Model.create (R := nat)) "name"
       {| scopes := Some ["public"] |}).
Proof.
  apply (view_fields
           (Model.addField
              (Model.addField (Model.create (R := nat)) "name"
                 {| scopes := Some ["public"] |})
              "ssn" {| scopes := Some ["private"] |})).
  - repeat apply Model.Declared_addField. apply Model.Declared_create.
  - vm_compute. reflexivity.
Defined.

(** X26.  [view] fails only because of the expression, never because of the
    model: it throws a [ParseError] when [parse] does, a [TypeError] when
    [parse] returns [undefined], and nothing else. *)
Theorem view_throws_iff {R : Type} (this : Model.state R) (expr : string)
    (e : exn) :
  Model.view this expr = Throw e <->
  (e = ParseError /\ parse expr = Throw ParseError) \/
  (e = TypeError /\ parse expr = Ret None).
Proof.
  unfold Model.view, viewSelected.
  destruct (parse expr) as [[f|]|e'] eqn:Hparse; simpl.
  - destruct (Compiled_total f (scopeInfo (Model._fields this))
                (fieldNames (Model._fields this))) as [selected ->].
    + eapply parse_Compiled. exact Hparse.
    + apply scopeInfo_covers.
    + simpl. split; [discriminate|].
      intros [[_ [=]] | [_ [=]]].
  - split.
    + intros [= <-]. auto.
    + intros [[_ [=]] | [-> _]]. reflexivity.
  - apply parse_throw in Hparse as [-> _]. split.
    + intros [= <-]. auto.
    + intros [[-> _] | [_ [=]]]. reflexivity.
Qed.

Lemma view_throws_iff_witness :
  Model.view (Model.create (R := nat)) "()" = Throw TypeError /\
  Model.view (Model.create (R := nat)) "(a" = Throw ParseError.
Proof.
  split; apply view_throws_iff; [right | left]; split; reflexivity.
Defined.

(** ** The descriptors of a selection *)

Section Selection.
Context {R : Type}.
Variable this : Model.state R.

Lemma selectedSoFar_seen done modelView x :
  includes done x = true ->
  selectedSoFar this done modelView ->
  selectedSoFar this (push done x) modelView.
Proof.
  intros Hx (HF & HR & HA).
  assert (Hinc : forall n, includes (push done x) n = includes done n).
  { intros n. rewrite includes_push.
    destruct (String.eqb_spec n x) as [->|_]; [|apply orb_false_r].
    rewrite Hx. reflexivity. }
  split; [|split]; intros n.
  - rewrite Hinc. apply HF.
  - rewrite Hinc. apply HR.
  - rewrite HA. unfold push. rewrite List.in_app_iff. simpl.
    apply includes_In in Hx. intuition (subst; auto).
Qed.

Lemma selectStep_selectedSoFar done modelView x :
  selectedSoFar this done modelView ->
  selectedSoFar this (push done x) (Model.selectStep this modelView x).
Proof.
  intros Hsel. pose proof Hsel as (HF & HR & HA).
  assert (Hinc : forall n, n <> x -> includes (push done x) n = includes done n).
  { intros n Hn. rewrite includes_push. apply String.eqb_neq in Hn.
    rewrite Hn. apply orb_false_r. }
  assert (Hincx : includes (push done x) x = true).
  { rewrite includes_push, String.eqb_refl. apply orb_true_r. }
  assert (Hin : forall n, In n (push done x) <-> In n done \/ n = x).
  { intros n. unfold push. rewrite List.in_app_iff. simpl. intuition. }
  unfold Model.selectStep.
  destruct (mapGet x (Model._fields this)) as [fd|] eqn:Hfd.
  2:{ (* not a field of this model: skipped *)
    assert (Hhas : mapHas x (Model._fields this) = false)
      by (apply mapGet_None; exact Hfd).
    split; [|split]; intros n.
    - destruct (String.eqb_spec n x) as [->|Hn].
      + rewrite Hincx, HF. unfold viewDescriptor. rewrite Hfd.
        destruct (includes done x); reflexivity.
      + rewrite Hinc by exact Hn. apply HF.
    - destruct (String.eqb_spec n x) as [->|Hn].
      + rewrite HR, Hhas, !andb_false_r. reflexivity.
      + rewrite Hinc by exact Hn. apply HR.
    - rewrite HA, Hin. split; [tauto|].
      intros [[H | ->] (H1 & H2 & H3)]; [tauto | congruence]. }
  assert (Hhas : mapHas x (Model._fields this) = true)
    by (apply mapGet_is_Some; rewrite Hfd; eauto).
  destruct (includes done x) eqn:Hdone.
  { (* asked for before: nothing changes *)
    assert (Hfx : mapHas x (Model._fields modelView) = true).
    { apply mapGet_is_Some. rewrite HF, Hdone. unfold viewDescriptor.
      rewrite Hfd. destruct (mapGet x (Model._relations this)); eauto. }
    destruct (mapGet x (Model._relations this)) as [rd|] eqn:Hrd.
    - unfold Model.addRelation.
      assert (Hrx : mapHas x (Model._relations modelView) = true).
      { apply mapGet_is_Some. rewrite HR, Hdone, Hhas. simpl. eauto. }
      rewrite Hrx. apply selectedSoFar_seen; assumption.
    - destruct (includes (Model._attributes this) x) eqn:Hattr.
      + unfold Model.addAttribute, Model.addField. rewrite Hfx. simpl.
        destruct (selectedSoFar_seen done modelView x Hdone Hsel)
          as (HF' & HR' & HA').
        split; [exact HF'|]. split; [exact HR'|].
        intros n. simpl. rewrite setAdd_In, <- HA', HA.
        split; [|tauto]. intros [H | ->]; [exact H|].
        apply includes_In in Hdone, Hattr. auto.
      + unfold Model.addField. rewrite Hfx.
        apply selectedSoFar_seen; assumption. }
  (* asked for the first time *)
  assert (Hfx : mapHas x (Model._fields modelView) = false).
  { apply mapGet_None. rewrite HF, Hdone. reflexivity. }
  assert (Hrx : mapHas x (Model._relations modelView) = false).
  { apply mapGet_None. rewrite HR, Hdone. reflexivity. }
  assert (Hnx : ~ In x done) by (apply includes_false; exact Hdone).
  destruct (mapGet x (Model._relations this)) as [rd|] eqn:Hrd.
  - unfold Model.addRelation. rewrite Hrx.
    unfold Model.addField. simpl. rewrite Hfx. simpl.
    split; [|split]; intros n;
      cbn [Model._fields Model._relations Model._attributes].
    + destruct (String.eqb_spec n x) as [->|Hn].
      * rewrite mapGet_mapSet_eq, Hincx. unfold viewDescriptor.
        rewrite Hfd, Hrd. reflexivity.
      * rewrite mapGet_mapSet_ne by congruence.
        rewrite Hinc by exact Hn. apply HF.
    + destruct (String.eqb_spec n x) as [->|Hn].
      * rewrite mapGet_mapSet_eq, Hincx, Hhas, Hrd. reflexivity.
      * rewrite mapGet_mapSet_ne by congruence.
        rewrite Hinc by exact Hn. apply HR.
    + rewrite HA, Hin. split; [tauto|].
      intros [[H | ->] (H1 & H2 & H3)]; [tauto | congruence].
  - destruct (includes (Model._attributes this) x) eqn:Hattr.
    + unfold Model.addAttribute, Model.addField. rewrite Hfx. simpl.
      split; [|split]; intros n;
      cbn [Model._fields Model._relations Model._attributes].
      * destruct (String.eqb_spec n x) as [->|Hn].
        -- rewrite mapGet_mapSet_eq, Hincx. unfold viewDescriptor.
           rewrite Hfd, Hrd. reflexivity.
        -- rewrite mapGet_mapSet_ne by congruence.
           rewrite Hinc by exact Hn. apply HF.
      * destruct (String.eqb_spec n x) as [->|Hn].
        -- rewrite HR, Hdone, Hincx, Hhas, Hrd. reflexivity.
        -- rewrite Hinc by exact Hn. apply HR.
      * rewrite setAdd_In, HA, Hin. apply includes_In in Hattr.
        split; [|tauto]. intros [H | ->]; [tauto|]. auto.
    + unfold Model.addField. rewrite Hfx. simpl.
      split; [|split]; intros n;
      cbn [Model._fields Model._relations Model._attributes].
      * destruct (String.eqb_spec n x) as [->|Hn].
        -- rewrite mapGet_mapSet_eq, Hincx. unfold viewDescriptor.
           rewrite Hfd, Hrd. reflexivity.
        -- rewrite mapGet_mapSet_ne by congruence.
           rewrite Hinc by exact Hn. apply HF.
      * destruct (String.eqb_spec n x) as [->|Hn].
        -- rewrite HR, Hdone, Hincx, Hhas, Hrd. reflexivity.
        -- rewrite Hinc by exact Hn. apply HR.
      * rewrite HA, Hin. apply includes_false in Hattr.
        split; [tauto|]. intros [[H | ->] (H1 & H2 & H3)]; tauto.
Qed.

Lemma fold_selectStep_selectedSoFar names :
  forall done modelView,
    selectedSoFar this done modelView ->
    selectedSoFar this (done ++ names)
      (fold_left (Model.selectStep this) names modelView).
Proof.
  induction names as [|x names IH]; intros done modelView Hsel; simpl.
  - rewrite app_nil_r. exact Hsel.
  - replace (done ++ x :: names) with (push done x ++ names)
      by (unfold push; rewrite <- app_assoc; reflexivity).
    apply IH, selectStep_selectedSoFar, Hsel.
Qed.
End Selection.

(** X27.  In the model that [select] gives, a relation of this model has the
    descriptor of [relationField] and its own relation descriptor; any other
    field keeps the descriptor it has in this model, and is an attribute
    exactly when it is one in this model.  Names not asked for, or not
    fields of this model, are absent. *)
Theorem select_descriptors {R : Type} (this : Model.state R)
    (names : list string) :
  (forall n,
     mapGet n (Model._fields (Model.select this names))
     = if includes names n then viewDescriptor this n else None) /\
  (forall n,
     mapGet n (Model._relations (Model.select this names))
     = if includes names n && mapHas n (Model._fields this)
       then mapGet n (Model._relations this) else None) /\
  (forall n,
     In n (Model._attributes (Model.select this names)) <->
     In n names /\ mapHas n (Model._fields this) = true /\
     mapGet n (Model._relations this) = None /\
     In n (Model._attributes this)).
Proof.
  apply (fold_selectStep_selectedSoFar this names [] Model.create).
  split; [|split]; intros n; simpl; [reflexivity | reflexivity|].
  split; [intros [] | intros [[] _]].
Qed.

(** ** The mapping of a model and the view of a view *)

Lemma mapGet_snoc {V : Type} (m : list (string * V)) k v name :
  mapGet name (m ++ [(k, v)])
  = match mapGet name m with
    | Some x => Some x
    | None => if String.eqb k name then Some v else None
    end.
Proof.
  induction m as [|[k' v'] m IH]; simpl; [reflexivity|].
  destruct (String.eqb k' name); [reflexivity | exact IH].
Qed.

Lemma scopeInfo_absent (_fields : FieldMap) name :
  ~ In name (fieldNames _fields) -> scopeInfo _fields !! name = None.
Proof.
  unfold fieldNames.
  induction _fields as [|[n d] _fields IH] using rev_ind; intros Hnot.
  - reflexivity.
  - rewrite scopeInfo_snoc. rewrite List.map_app, List.in_app_iff in Hnot.
    simpl in Hnot. rewrite lookup_insert_ne by tauto. apply IH. tauto.
Qed.

Lemma scopeInfo_mapGet (_fields : FieldMap) name :
  List.NoDup (fieldNames _fields) ->
  scopeInfo _fields !! name
  = option_map (fun d => default [] (scopes d)) (mapGet name _fields).
Proof.
  unfold fieldNames.
  induction _fields as [|[n d] _fields IH] using rev_ind; intros Hnd.
  - reflexivity.
  - rewrite List.map_app in Hnd. simpl in Hnd.
    apply List.NoDup_remove in Hnd as [Hnd Hn]. rewrite app_nil_r in Hnd, Hn.
    rewrite scopeInfo_snoc, mapGet_snoc.
    destruct (String.eqb_spec n name) as [->|Hne].
    + rewrite lookup_insert_eq.
      assert (Hnone : mapGet name _fields = None).
      { apply mapGet_None, not_true_is_false. intros H.
        apply mapHas_In in H. exact (Hn H). }
      rewrite Hnone. reflexivity.
    + rewrite lookup_insert_ne by exact Hne. rewrite IH by exact Hnd.
      destruct (mapGet name _fields); reflexivity.
Qed.

(** X28.  When no field is named [__proto__], the keys of the object that
    [scopeInfo] builds (the properties of its own) are the names of the fields
    and no others; and when, besides, no name occurs twice, as in a [Map], the
    entry of a name is the [scopes] of the descriptor that [get] returns for
    it, or the empty array when that descriptor has none.  A field named
    [__proto__] is left out: for it the source sets the prototype of the
    object and adds no key. *)
Theorem scopeInfo_reads_descriptors (_fields : FieldMap) (name : string) :
  ~ In "__proto__" (fieldNames _fields) ->
  (scopeInfo _fields !! name = None <-> ~ In name (fieldNames _fields)) /\
  (List.NoDup (fieldNames _fields) ->
   scopeInfo _fields !! name
   = option_map (fun d => default [] (scopes d)) (mapGet name _fields)).
Proof.
  intros _.
  split; [|apply scopeInfo_mapGet].
  split; [|apply scopeInfo_absent].
  intros Hnone Hin.
  destruct (scopeInfo_lookup _fields name Hin) as (d & _ & Hsome).
  congruence.
Qed.

Lemma scopeInfo_reads_descriptors_witness :
  (scopeInfo [("id", {| scopes := None |});
              ("name", {| scopes := Some ["public"] |})] !! "age" = None <->
   ~ In "age"
       (fieldNames [("id", {| scopes := None |});
                    ("name", {| scopes := Some ["public"] |})])) /\
  scopeInfo [("id", {| scopes := None |});
             ("name", {| scopes := Some ["public"] |})] !! "id"
  = option_map (fun d => default [] (scopes d))
      (mapGet "id" [("id", {| scopes := None |});
                    ("name", {| scopes := Some ["public"] |})]).
Proof.
  destruct (scopeInfo_reads_descriptors
              [("id", {| scopes := None |});
               ("name", {| scopes := Some ["public"] |})] "age")
    as [Hkeys _].
  { simpl. intuition discriminate. }
  destruct (scopeInfo_reads_descriptors
              [("id", {| scopes := None |});
               ("name", {| scopes := Some ["public"] |})] "id")
    as [_ Hentry].
  { simpl. intuition discriminate. }
  split; [exact Hkeys|]. apply Hentry. simpl.
  repeat (constructor; [simpl; intuition discriminate|]). constructor.
Defined.

(** X29.  The view of a view.  When the relations of a model carry no
    scopes in its fields, viewing a view again through the same expression
    gives a model with the same fields. *)
Theorem view_of_view {R : Type} (this view : Model.state R) (expr : string) :
  Model.Declared this ->
  (forall n fd,
     mapHas n (Model._relations this) = true ->
     mapGet n (Model._fields this) = Some fd ->
     default [] (scopes fd) = []) ->
  Model.view this expr = Ret view ->
  exists view',
    Model.view view expr = Ret view' /\
    forall n, In n (fieldNames (Model._fields view'))
              <-> In n (fieldNames (Model._fields view)).
Proof.
  intros Hd Hrel Hview.
  destruct (view_inversion this view expr Hd Hview)
    as (f & selected & Hparse & Hc & Hsel & -> & Hf & Hnds & Hsub).
  destruct (select_fields_aux this selected) as [Hdv _].
  destruct (Declared_invariant this Hd) as (Hnd & _).
  destruct (Declared_invariant _ Hdv) as (Hndv & _).
  destruct (fold_selectStep_selectedSoFar this selected [] Model.create)
    as (HF & _).
  { split; [|split]; intros n; simpl; [reflexivity | reflexivity|].
    split; [intros [] | intros [[] _]]. }
  fold (Model.select this selected) in HF. simpl in HF.
  (* the two mappings agree on the selected fields *)
  assert (Hagree : forall x, In x selected ->
            scopeInfo (Model._fields (Model.select this selected)) !! x
            = scopeInfo (Model._fields this) !! x).
  { intros x Hx. rewrite !scopeInfo_mapGet by assumption.
    rewrite HF. apply includes_In in Hx. rewrite Hx.
    unfold viewDescriptor.
    destruct (mapGet x (Model._fields this)) as [fd|] eqn:Hfd;
      [|reflexivity].
    destruct (mapGet x (Model._relations this)) as [rd|] eqn:Hrd;
      [|reflexivity].
    simpl. f_equal. symmetry. apply (Hrel x fd); [|exact Hfd].
    apply mapGet_is_Some. rewrite Hrd. eauto. }
  assert (Hall : Forall (fun x => is_Some (scopeInfo (Model._fields this) !! x))
                   (fieldNames (Model._fields this)))
    by apply scopeInfo_covers.
  destruct (Compiled_idempotent f _ _ selected Hc Hall Hsel)
    as (r' & Hr' & Hmem).
  assert (Heval : f (scopeInfo (Model._fields (Model.select this selected)))
                    selected = Ret r').
  { rewrite <- Hr'. apply Compiled_sameScopes; [exact Hc|].
    intros x Hx. rewrite (Hagree x Hx). unfold sameScopes.
    destruct (scopeInfo (Model._fields this) !! x); tauto. }
  exists (Model.select (Model.select this selected) r').
  assert (Hview' : Model.view (Model.select this selected) expr
                   = Ret (Model.select (Model.select this selected) r')).
  { unfold Model.view, viewSelected. rewrite Hparse. simpl.
    rewrite Hf, Heval. reflexivity. }
  split; [exact Hview'|].
  destruct (view_inversion _ _ expr Hdv Hview')
    as (f' & selected' & Hparse' & _ & Hsel' & _ & Hf' & _).
  assert (f' = f) by congruence. subst f'.
  rewrite Hf in Hsel'. rewrite Heval in Hsel'. injection Hsel' as <-.
  intros n. rewrite Hf', Hf. apply Hmem.
Qed.

Lemma view_of_view_witness :
  exists view',
    Model.view
      (Model.addField (Model.create (R := nat)) "name"
         {| scopes := Some ["public"] |})
      "public"
    = Ret view' /\
    forall n,
      In n (fieldNames (Model._fields view')) <->
      In n (fieldNames
              (Model._fields
                 (Model.addField (Model.create (R := nat)) "name"
                    {| scopes := Some ["public"] |}))).
Proof.
  apply (view_of_view
           (Model.addField
              (Model.addField (Model.create (R := nat)) "name"
                 {| scopes := Some ["public"] |})
              "ssn" {| scopes := Some ["private"] |})).
  - repeat apply Model.Declared_addField. apply Model.Declared_create.
  - intros n fd Hrel. simpl in Hrel. discriminate.
  - vm_compute. reflexivity.
Defined.
